(** * GO-VAE model explorer: the term-graph pipeline of [app-GTEx.py]

    A shallow embedding of the ontology helpers ([find_all_paths],
    [get_ancestors], [get_comm_ancestors]) and of
    [get_cytoscape_components], followed by the properties of the
    design document that concern them. *)

From Stdlib Require Import QArith Lqa.
From stdpp Require Import gmap strings list fin_maps pretty sorting.

Local Open Scope nat_scope.
Local Open Scope stdpp_scope.

(** ** Python outcomes *)

(** The exceptions the modelled code can raise. *)
Inductive exn : Set :=
  | ValueError
  | KeyError
  | IndexError
  | TypeError.

Inductive result (A : Type) : Type :=
  | Ok (a : A)
  | Raise (e : exn).
Arguments Ok {A} a.
Arguments Raise {A} e.

Definition is_Ok {A} (r : result A) : Prop := ∃ a, r = Ok a.

(** Sequencing: the first exception ends the computation. *)
#[global] Instance result_ret : MRet result := λ A a, Ok a.

#[global] Instance result_bind : MBind result := λ A B f r,
  match r with
  | Ok a => f a
  | Raise e => Raise e
  end.

(** ** Ontology graph queries (lines 106-130) *)

Module Ontology.

(** [onto_graph] is the JSON object loaded at start-up: term id to the
    list of its neighbour ids. *)
Abbreviation graph_t := (gmap string (list string)).

(** [find_all_paths(graph, start, end, path=[])].  The recursion of the
    source is not structural, so the embedding carries a fuel argument
    counting the remaining call depth; [None] means the fuel ran out,
    which the source cannot do (see [find_all_paths_fuel_enough]).
    The [for] loop appends, for every neighbour not yet on [path], the
    paths of the recursive call: its result is the concatenation of
    the calls on the neighbours that pass the test, in order. *)
Fixpoint find_all_paths_fuel (fuel : nat) (graph : graph_t)
    (start end_ : string) (path : list string) : option (list (list string)) :=
  match fuel with
  | O => None
  | S fuel =>
      let path := path ++ [start] in
      if decide (start = end_) then Some [path]
      else match graph !! start with
           | None => Some []
           | Some nbrs =>
               (λ new_paths, concat new_paths) <$>
                 mapM (λ node, find_all_paths_fuel fuel graph node end_ path)
                      (filter (λ node, node ∉ path) nbrs)
           end
  end.

(** The call depth never exceeds the number of keys of the graph plus
    two, whatever the accumulated path. *)
Definition find_all_paths (graph : graph_t) (start end_ : string)
    (path : list string) : list (list string) :=
  default [] (find_all_paths_fuel (2 + size graph) graph start end_ path).

(** [get_ancestors(node, roots, graph)] *)
Definition get_ancestors (node : string) (roots : list string)
    (graph : graph_t) : gset string :=
  let paths := (λ root, find_all_paths graph node root []) <$> roots in
  let paths_filt := filter (λ path, 0 < length path) paths in
  let paths_filt := concat paths_filt in
  let ancestors : gset string := list_to_set (concat paths_filt) in
  if decide (0 < size ancestors) then ancestors else {[ node ]}.

(** [set.intersection] unpacked over the list of sets: a [TypeError]
    when the list is empty. *)
Definition set_intersection (sets : list (gset string)) : result (gset string) :=
  match sets with
  | [] => Raise TypeError
  | s :: rest => Ok (foldl (∩) s rest)
  end.

(** [get_comm_ancestors(leaves, roots, graph)] *)
Definition get_comm_ancestors (leaves roots : list string)
    (graph : graph_t) : result (gset string) :=
  let ancestors := (λ node, get_ancestors node roots graph) <$> leaves in
  set_intersection ancestors.

(** A neighbour that is already on the current path: the event the
    guard [if node not in path] of the loop tests for.  [revisits]
    tells whether the search from [start] meets it at least once. *)
Fixpoint revisits (fuel : nat) (graph : graph_t)
    (start end_ : string) (path : list string) : bool :=
  match fuel with
  | O => false
  | S fuel =>
      let path := path ++ [start] in
      if decide (start = end_) then false
      else match graph !! start with
           | None => false
           | Some nbrs =>
               existsb (λ node,
                 if decide (node ∈ path) then true
                 else revisits fuel graph node end_ path) nbrs
           end
  end.

(** [walk graph s q e]: [s :: q] follows edges of [graph] and ends in [e]. *)
Inductive walk (graph : graph_t) : string → list string → string → Prop :=
  | walk_stop s : walk graph s [] s
  | walk_step s n q e nbrs :
      graph !! s = Some nbrs → n ∈ nbrs → walk graph n q e →
      walk graph s (n :: q) e.

End Ontology.

(** ** NumPy arrays in a store *)

Module Numpy.

(** A two-dimensional float array, row by row.  Similarities are modelled
    as rationals: the code only copies, compares and scales them. *)
Abbreviation ndarray := (list (list Q)).

(** Arrays are objects: a name holds a reference into the store, and two
    names may hold the same reference. *)
Abbreviation ref := nat.
Abbreviation store := (gmap nat ndarray).

(** Computations that read and update the store and may raise. *)
Definition M (A : Type) : Type := store → store * result A.

#[global] Instance M_ret : MRet M := λ A a σ, (σ, Ok a).

#[global] Instance M_bind : MBind M := λ A B f m σ,
  match m σ with
  | (σ', Ok a) => f a σ'
  | (σ', Raise e) => (σ', Raise e)
  end.

Definition lift {A} (r : result A) : M A := λ σ, (σ, r).

(** A new array object. *)
Definition alloc (a : ndarray) : M ref :=
  λ σ, let r := fresh (dom σ) in (<[r := a]> σ, Ok r).

(** The array a reference points to (every reference the code holds is
    bound; an unbound one is reported as a [KeyError] of the store). *)
Definition read (r : ref) : M ndarray :=
  λ σ, match σ !! r with
       | Some a => (σ, Ok a)
       | None => (σ, Raise KeyError)
       end.

Definition write (r : ref) (a : ndarray) : M unit :=
  λ σ, (<[r := a]> σ, Ok tt).

Definition index {A} (l : list A) (i : nat) : result A :=
  match l !! i with
  | Some x => Ok x
  | None => Raise IndexError
  end.

Fixpoint take_indices {A} (l : list A) (idx : list nat) : result (list A) :=
  match idx with
  | [] => Ok []
  | i :: idx =>
      match index l i, take_indices l idx with
      | Ok x, Ok xs => Ok (x :: xs)
      | Raise e, _ => Raise e
      | _, Raise e => Raise e
      end
  end.

Fixpoint take_columns (a : ndarray) (idx : list nat) : result ndarray :=
  match a with
  | [] => Ok []
  | row :: a =>
      match take_indices row idx, take_columns a idx with
      | Ok r, Ok rs => Ok (r :: rs)
      | Raise e, _ => Raise e
      | _, Raise e => Raise e
      end
  end.

(** [a[idx, :]] with an integer array [idx]: advanced indexing, which
    always builds a new array. *)
Definition getitem_rows (a : ref) (idx : list nat) : M ref :=
  arr ← read a; sub ← lift (take_indices arr idx); alloc sub.

(** [a[:, idx]]: advanced indexing again, a new array. *)
Definition getitem_cols (a : ref) (idx : list nat) : M ref :=
  arr ← read a; sub ← lift (take_columns arr idx); alloc sub.

Definition Qltb (x y : Q) : bool := negb (Qle_bool y x).

(** [a < t]: a new boolean array. *)
Definition less (a : ref) (t : Q) : M (list (list bool)) :=
  arr ← read a; mret (map (map (λ x, Qltb x t)) arr).

Definition mask_set (v : Q) (row : list Q) (mask : list bool) : list Q :=
  zip_with (λ x (b : bool), if b then v else x) row mask.

(** [a[mask] = v]: assignment through a boolean mask, which updates the
    array object [a] refers to in place. *)
Definition setitem_mask (a : ref) (mask : list (list bool)) (v : Q) : M unit :=
  arr ← read a; write a (zip_with (mask_set v) arr mask).

(** What [a[a < 0.5] = 0] leaves of one entry. *)
Definition threshold (x : Q) : Q := if Qltb x (1 # 2) then 0%Q else x.

(** [np.unique(l)]: the distinct values, ascending. *)
Definition unique (l : list nat) : list nat :=
  filter (λ k, k ∈ l) (seq 0 (S (max_list l))).

(** [np.array(coords).T] unpacked into two targets.  For [n ≥ 1] points
    of dimension two the array has shape [(n, 2)], its transpose has two
    rows, the columns of [coords].  The array of an empty list has shape
    [(0,)]: its transpose is itself, iterating it yields nothing and the
    unpacking raises [ValueError] (as does any row count other than 2). *)
Definition point (r : list Q) : option (Q * Q) :=
  match r with
  | [x; y] => Some (x, y)
  | _ => None
  end.

Definition transpose_unpack2 (coords : list (list Q)) : result (list Q * list Q) :=
  match coords with
  | [] => Raise ValueError
  | _ :: _ =>
      match mapM point coords with
      | Some ps => Ok (ps.*1, ps.*2)
      | None => Raise ValueError
      end
  end.

End Numpy.

(** ** igraph *)

Module Igraph.
Import Numpy.

(** A weighted undirected graph on the vertices [0 .. vcount-1]; [es]
    are the rows of [get_edge_dataframe()]: source, target, weight. *)
Record Graph := mkGraph { vcount : nat; es : list (nat * nat * Q) }.

Definition entry (m : ndarray) (i j : nat) : Q :=
  default 0%Q (m !! i ≫= (.!! j)).

(** The pair [i < j] of [Weighted_Adjacency(..., mode='undirected')]:
    the larger of the two entries is the weight, and an edge is made when
    it is not zero. *)
Definition pair_edge (m : ndarray) (i j : nat) : list (nat * nat * Q) :=
  let M1 := entry m i j in
  let M2 := entry m j i in
  let w := if Qltb M1 M2 then M2 else M1 in
  if Qeq_bool w 0 then [] else [(i, j, w)].

(** [Graph.Weighted_Adjacency(m, mode='undirected', loops=False)]: one
    vertex per row; the diagonal is skipped; a matrix that is not square
    is refused. *)
Definition Weighted_Adjacency (m : ndarray) : result Graph :=
  let n := length m in
  if decide (Forall (λ row, length row = n) m) then
    Ok (mkGraph n
          (i ← seq 0 n; j ← seq (S i) (n - S i); pair_edge m i j))
  else Raise ValueError.

(** The two vertices are joined by an edge of weight [w]. *)
Definition adjacent (g : Graph) (i j : nat) (w : Q) : Prop :=
  (i, j, w) ∈ es g ∨ (j, i, w) ∈ es g.

End Igraph.

(** ** Tables *)

(** A row of the ranked term table of one tissue (the [group] frame);
    only the columns the pipeline reads. *)
Module Group.
Record row := mk { id : string; term : string; genes : Z; ind : nat }.
End Group.

(** A row of the ontology annotation table [annot]. *)
Module Annot.
Record row := mk { GO_ID : string; GO_term : string; depth : Z; genes : Z }.
End Annot.

Module Pandas.

(** [frame.iloc[0]]: an [IndexError] on an empty selection. *)
Definition iloc0 {A} (l : list A) : result A := Numpy.index l 0.

(** [series.unique()]: distinct values in order of first appearance. *)
Definition unique (l : list nat) : list nat :=
  reverse (remove_dups (reverse l)).

(** [frame[name] = values]: the length must match the frame. *)
Definition set_column {A} (n : nat) (values : list A) : result (list A) :=
  if decide (length values = n) then Ok values else Raise ValueError.

(** Order of sort keys, column by column: [lex_lt k1 k2] when [k1]
    is strictly before [k2] in ascending order. *)
Fixpoint lex_lt (k1 k2 : list Z) : bool :=
  match k1, k2 with
  | x :: k1, y :: k2 => (x <? y)%Z || ((x =? y)%Z && lex_lt k1 k2)
  | [], _ :: _ => true
  | _, [] => false
  end.

(** What [sort_values(by, ascending=False)] guarantees: the rows are
    rearranged so that no row comes before a row of larger key. *)
Definition sorts_descending
    (sort_values : ∀ A : Type, (A → list Z) → list A → list A) : Prop :=
  ∀ A (by_ : A → list Z) (l : list A),
    sort_values A by_ l ≡ₚ l
    ∧ StronglySorted (λ a b, lex_lt (by_ a) (by_ b) = false)
        (sort_values A by_ l).

(** A sort that leaves rows of equal key in the order they had (every
    stable kind; NumPy's default quicksort on at most sixteen rows). *)
Definition keeps_ties_in_order
    (sort_values : ∀ A : Type, (A → list Z) → list A → list A) : Prop :=
  ∀ A (by_ : A → list Z) (l : list A) (k : list Z),
    filter (λ a, by_ a = k) (sort_values A by_ l)
      = filter (λ a, by_ a = k) l.

End Pandas.

(** A Python [dict] built from pairs, as an association list in
    insertion order; the keys of the lists below are distinct. *)
Fixpoint dict_get {V} (d : list (nat * V)) (k : nat) : result V :=
  match d with
  | [] => Raise KeyError
  | (k', v) :: d => if decide (k' = k) then Ok v else dict_get d k
  end.

(** [dict(pairs)] looked up only: a later pair overrides an earlier one. *)
Definition dict_of `{Countable K} {V} (pairs : list (K * V)) : gmap K V :=
  list_to_map (reverse pairs).

#[global] Instance result_fmap : FMap result := λ A B f r,
  match r with
  | Ok a => Ok (f a)
  | Raise e => Raise e
  end.

(** ** The render payload *)

Record node_data := mk_node_data {
  node_id : string;
  node_label : string;
  node_genes : Q;
  node_representative : bool;
  node_rep_label : option string;
  node_rep_label_hover : string }.

(** An element of the Cytoscape list; nodes are also grabbable and
    selectable, two constants left out. *)
Inductive element :=
  | Node (data : node_data) (position : Q * Q) (classes : string)
  | Edge (source target : string) (weight : Q) (classes : string).

Definition is_node (e : element) : bool :=
  match e with Node _ _ _ => true | Edge _ _ _ _ => false end.

(** The [classes] entry of an element. *)
Definition element_classes (e : element) : string :=
  match e with Node _ _ cls => cls | Edge _ _ _ cls => cls end.

Record style_rule := mk_rule {
  selector : string;
  style : list (string * string) }.

(** [px.colors.qualitative.Dark24] *)
Definition Dark24 : list string :=
  [ "#2E91E5"; "#E15F99"; "#1CA71C"; "#FB0D0D"; "#DA16FF"; "#222A2A";
    "#B68100"; "#750D86"; "#EB663B"; "#511CFB"; "#00A08B"; "#FB00D1";
    "#FC0080"; "#B2828D"; "#6C7C32"; "#778AAE"; "#862A16"; "#A777F1";
    "#620042"; "#1616A7"; "#DA60CA"; "#6C4516"; "#0D2A63"; "#AF0038" ]%string.

(** ** [get_cytoscape_components] (lines 136-264) *)

Section pipeline.
Import Ontology Numpy Igraph Pandas.

(** The globals loaded at start-up. *)
Context (annot : list Annot.row) (onto_graph : graph_t).

(** Library calls whose result the pipeline only passes on:
    - [frame.sort_values(by, ascending=False)] with the sort key of a row
      given by [by] (one entry per column);
    - [graph.layout()], one point per vertex;
    - [graph.community_multilevel().membership];
    - [np.log]. *)
Context (sort_values : ∀ A : Type, (A → list Z) → list A → list A).
Context (layout : Graph → list (list Q)).
Context (community_multilevel : Graph → list nat).
Context (np_log : Z → Q).

(** [roots = annot[annot.depth == 0].GO_ID.tolist()] *)
Definition roots : list string :=
  Annot.GO_ID <$> filter (λ r, Annot.depth r = 0%Z) annot.

(** Lines 147-154: the thresholded similarity graph of the group. *)
Definition similarity_graph (group : list Group.row) (wsem_sim : ref) : M Graph :=
  let idx := Group.ind <$> group in
  group_sims ← getitem_rows wsem_sim idx;
  group_sims ← getitem_cols group_sims idx;
  mask ← less group_sims (1 # 2);
  _ ← setitem_mask group_sims mask 0%Q;
  m ← read group_sims;
  lift (Weighted_Adjacency m).

(** Lines 155-156: coordinates, assigned as the columns [x] and [y]. *)
Definition coordinates (n : nat) (graph : Graph) : result (list Q * list Q) :=
  '(xs, ys) ← transpose_unpack2 (layout graph);
  xs ← set_column n xs;
  ys ← set_column n ys;
  mret (xs, ys).

(** Line 160: the edges with the term ids of their end points. *)
Definition edge_list (group : list Group.row) (graph : Graph)
    : result (list (string * string * Q)) :=
  mapM (λ e : nat * nat * Q,
          let '(s, t, w) := e in
          rs ← index group s;
          rt ← index group t;
          mret (Group.id rs, Group.id rt, w)) (es graph).

(** [list(set(membership))]: the community ids are small non-negative
    integers, which a Python set iterates in ascending order. *)
Definition set_list (membership : list nat) : list nat := Numpy.unique membership.

(** Lines 167-171: the colours taken from the palette. *)
Definition palette_colors (n_comm : nat) : list string :=
  if decide (n_comm ≤ 24) then take n_comm Dark24
  else Dark24 ++ take (n_comm - 24) Dark24.

(** Line 172 *)
Definition color_map (membership : list nat) : list (nat * string) :=
  let n_comm := length (Numpy.unique membership) in
  zip (set_list membership) (palette_colors n_comm).

(** Line 173 *)
Definition node_colors (membership : list nat) : result (list string) :=
  mapM (dict_get (color_map membership)) membership.

(** The ids of the rows of community [k], in group order (line 176). *)
Definition ids_of (group : list Group.row) (community : list nat) (k : nat)
    : list string :=
  (λ rc : Group.row * nat, Group.id rc.1)
    <$> filter (λ rc : Group.row * nat, rc.2 = k) (zip group community).

(** Lines 176-177: the member ids of every community with more than one
    member, in order of first appearance of the community. *)
Definition comm_members (group : list Group.row) (community : list nat)
    : list (nat * list string) :=
  let all := (λ i, (i, ids_of group community i)) <$> Pandas.unique community in
  filter (λ kv : nat * list string, 1 < length kv.2) all.

(** Line 182: the representative of one community. *)
Definition representative_of (group : list Group.row) (vals : list string)
    : result string :=
  Group.id <$>
    iloc0 (sort_values _ (λ r, [Group.genes r])
             (filter (λ r, Group.id r ∈ vals) group)).

(** Lines 180-182 *)
Definition representatives (group : list Group.row)
    (cm : list (nat * list string)) : result (list string) :=
  mapM (λ kv : nat * list string, representative_of group kv.2) cm.

(** Line 186 *)
Definition comm_ancestors (cm : list (nat * list string))
    : result (list (nat * gset string)) :=
  mapM (λ kv : nat * list string,
          v ← get_comm_ancestors kv.2 roots onto_graph; mret (kv.1, v)) cm.

(** Lines 191-196: the label of one community from its common ancestors. *)
Definition rep_label (cm : list (nat * list string)) (k : nat) (v : gset string)
    : result string :=
  if decide (size v = 1) then
    Annot.GO_term <$> iloc0 (filter (λ r, Annot.GO_ID r ∈ v) annot)
  else if decide (size v = 0) then
    members ← dict_get cm k;
    Annot.GO_term <$>
      iloc0 (sort_values _ (λ r, [Annot.genes r])
               (filter (λ r, Annot.GO_ID r ∈ members) annot))
  else
    Annot.GO_term <$>
      iloc0 (sort_values _ (λ r, [Annot.depth r; Annot.genes r])
               (filter (λ r, Annot.GO_ID r ∈ v) annot)).

(** Lines 189-196 *)
Definition rep_labels (cm : list (nat * list string))
    (ca : list (nat * gset string)) : result (list string) :=
  mapM (λ kv : nat * gset string, rep_label cm kv.1 kv.2) ca.

(** Lines 208-218: the node of one row and its derived columns. *)
Definition make_node (r : Group.row) (x y : Q) (community : nat)
    (representative : bool) (rep_label : option string)
    (rep_label_hover : string) : element :=
  Node {| node_id := Group.id r;
          node_label := Group.term r;
          node_genes := (np_log (Group.genes r + 2) * 10)%Q;
          node_representative := representative;
          node_rep_label := rep_label;
          node_rep_label_hover := rep_label_hover |}
       ((x * 50)%Q, (y * 50)%Q)
       (pretty community).

(** Lines 220-221: the class of an edge is the community of the first
    row that carries the id of its source. *)
Definition make_edge (group : list Group.row) (community : list nat)
    (e : string * string * Q) : result element :=
  let '(s, t, w) := e in
  rc ← iloc0 (filter (λ rc : Group.row * nat, Group.id rc.1 = s)
                (zip group community));
  mret (Edge s t (w * 5)%Q (pretty rc.2)).

(** Lines 224-262 *)
Definition stylesheet (cmap : list (nat * string)) : list style_rule :=
  [ mk_rule "node" [("width", "data(genes)"); ("height", "data(genes)")];
    mk_rule "edge" [("width", "data(weight)")];
    mk_rule "[representative == True]"
      [("label", "data(rep_label)"); ("font-size", "20px")] ]%string
  ++ ((λ kc : nat * string,
         mk_rule ("." +:+ pretty kc.1)
           [("background-color", kc.2); ("line-color", kc.2); ("color", kc.2)]%string)
      <$> cmap).

(** The steps after the graph is built (lines 155-264). *)
Definition components_of_graph (group : list Group.row) (graph : Graph)
    : result (list element * list style_rule) :=
  let n := length group in
  '(xs, ys) ← coordinates n graph;
  es ← edge_list group graph;
  community ← set_column n (community_multilevel graph);
  color ← node_colors community;
  let cm := comm_members group community in
  reps ← representatives group cm;
  let representative := (λ r, bool_decide (Group.id r ∈ reps)) <$> group in
  ca ← comm_ancestors cm;
  labels ← rep_labels cm ca;
  let rep_dict : gmap string string := dict_of (zip reps labels) in
  let rep_label := (λ r, rep_dict !! Group.id r) <$> group in
  let rep_dict2 : gmap nat string := dict_of (zip ca.*1 labels) in
  let rep_label_hover :=
    (λ c, default "None"%string (rep_dict2 !! c)) <$> community in
  let nodes :=
    zip_with (λ r '(x, (y, (c, (rp, (rl, rh))))), make_node r x y c rp rl rh)
      group
      (zip xs (zip ys (zip community (zip representative
         (zip rep_label rep_label_hover))))) in
  edges ← mapM (make_edge group community) es;
  mret (nodes ++ edges, stylesheet (color_map community)).

Definition get_cytoscape_components (group : list Group.row) (wsem_sim : ref)
    : M (list element * list style_rule) :=
  graph ← similarity_graph group wsem_sim;
  lift (components_of_graph group graph).

End pipeline.

(** The node list of lines 208-218, from the columns of the frame. *)
Definition node_list (np_log : Z → Q) (group : list Group.row) (xs ys : list Q)
    (community : list nat) (reps labels : list string)
    (ca : list (nat * gset string)) : list element :=
  zip_with (λ r '(x, (y, (c, (rp, (rl, rh))))), make_node np_log r x y c rp rl rh)
    group
    (zip xs (zip ys (zip community
       (zip ((λ r, bool_decide (Group.id r ∈ reps)) <$> group)
          (zip ((λ r, (dict_of (zip reps labels) : gmap string string)
                        !! Group.id r) <$> group)
               ((λ c, default "None"%string
                        ((dict_of (zip ca.*1 labels) : gmap nat string) !! c))
                  <$> community)))))).

(** ** The callbacks (lines 560-682) *)

(** A row of [wilcox_results]: the columns [draw_graph1] and
    [draw_graph2] filter and sort by, and those the pipeline reads. *)
Module Wilcox.
Record row := mk {
  tissue : string; rank : Q; hits : Q; med_stat : Q;
  id : string; term : string; genes : Z; ind : nat }.

(** The columns of a row that [get_cytoscape_components] reads. *)
Definition group_row (r : row) : Group.row :=
  Group.mk (id r) (term r) (genes r) (ind r).
End Wilcox.

(** A row of [sample_annot], with its index label. *)
Module Sample.
Record row := mk { index : nat; study : string; tissue : string }.
End Sample.

(** [frame.iloc[start:stop]] for bounds that are not negative. *)
Definition iloc_slice {A} (l : list A) (start stop : nat) : list A :=
  take (stop - start) (drop start l).

(** What a sort of a frame guarantees whatever its keys are: the rows
    are the same. *)
Definition rearranges {A} (sort : list A → list A) : Prop :=
  ∀ l, sort l ≡ₚ l.

(** [series.unique()] on strings: first appearance order. *)
Definition unique_strings (l : list string) : list string :=
  reverse (remove_dups (reverse l)).

(** [pd.concat([a, b], axis=1)] of two frames indexed from zero: the
    rows are joined by position, and a frame that is shorter is filled
    with missing values. *)
Fixpoint concat_columns {A B} (a : list A) (b : list B)
    : list (option A * option B) :=
  match a, b with
  | [], [] => []
  | x :: a, [] => (Some x, None) :: concat_columns a []
  | [], y :: b => (None, Some y) :: ((λ y, (None, Some y)) <$> b)
  | x :: a, y :: b => (Some x, Some y) :: concat_columns a b
  end.

(** The children of the hover panel. *)
Inductive html := H5 (children : string) | P (children : string).

Inductive hover_contents :=
  | Text (s : string)
  | Children (l : list html).

Section callbacks.
Import Ontology Numpy Igraph Pandas.

Context (annot : list Annot.row) (onto_graph : graph_t).
Context (sort_values : ∀ A : Type, (A → list Z) → list A → list A).
Context (layout : Graph → list (list Q)).
Context (community_multilevel : Graph → list nat).
Context (np_log : Z → Q).

(** The table of test results, and
    [sort_values(['rank', 'hits', 'med_stat'], ascending=(True, False, False))]. *)
Context (wilcox_results : list Wilcox.row).
Context (sort_ranked : list Wilcox.row → list Wilcox.row).

(** Lines 629-630: the rows of the tissue, sorted, cut to the window of
    the slider. *)
Definition data_sig (tissue : string) (values : nat * nat) : list Wilcox.row :=
  let data := filter (λ r, Wilcox.tissue r = tissue) wilcox_results in
  iloc_slice (sort_ranked data) values.1 values.2.

(** [draw_graph1(tissue, values)] (lines 627-634) *)
Definition draw_graph1 (tissue : string) (values : nat * nat) (wsem_sim : ref)
    : M (list element * list style_rule) :=
  get_cytoscape_components annot onto_graph sort_values layout
    community_multilevel np_log
    (Wilcox.group_row <$> data_sig tissue values) wsem_sim.

(** [draw_graph2(tissue, values)] (lines 642-649) *)
Definition draw_graph2 (tissue : string) (values : nat * nat) (wsem_sim : ref)
    : M (list element * list style_rule) :=
  get_cytoscape_components annot onto_graph sort_values layout
    community_multilevel np_log
    (Wilcox.group_row <$> data_sig tissue values) wsem_sim.

(** The sample table, the latent space, the stored default embedding and
    [umap.UMAP().fit_transform]. *)
Context (sample_annot : list Sample.row) (z : ndarray).
Context (umap_default : list (option (Q * Q) * option Sample.row)).
Context (fit_transform : ndarray → list (Q * Q)).

(** [compute_UMAP(n_clicks, study, tissue)] (lines 566-595), up to the
    serialisation of the frame it returns; [n_clicks] is not read. *)
Definition compute_UMAP (study tissue : list string)
    : result (list (option (Q * Q) * option Sample.row)) :=
  let default := bool_decide (length study = 0 ∧ length tissue = 0) in
  if default then Ok umap_default
  else
    let study :=
      if decide (length study = 0)
      then unique_strings (Sample.study <$> sample_annot) else study in
    let tissue :=
      if decide (length tissue = 0)
      then unique_strings (Sample.tissue <$> sample_annot) else tissue in
    let annot_sub :=
      filter (λ r, Sample.study r ∈ study ∧ Sample.tissue r ∈ tissue)
        sample_annot in
    let samples_sub := Sample.index <$> annot_sub in
    z_sub ← take_indices z samples_sub;
    let embedding := fit_transform z_sub in
    mret (concat_columns embedding annot_sub).

End callbacks.

(** [display_info(data1, data2)] (lines 660-682); [prop_id] is
    [ctx.triggered[0]['prop_id']], and the data of a graph is [None] or the
    [data] entry of the node under the pointer. *)
Definition display_info (prop_id : string) (data1 data2 : option node_data)
    : hover_contents :=
  let data : option node_data := None in
  let data :=
    if decide (prop_id = "go-graph1.mouseoverNodeData"%string)
    then data1 else data in
  let data :=
    if decide (prop_id = "go-graph2.mouseoverNodeData"%string)
    then data2 else data in
  match data with
  | None => Text "Move over a node to display its information!"
  | Some data =>
      Children
        [ H5 (node_id data +:+ " | " +:+ node_label data);
          P ("Cluster: " +:+ node_rep_label_hover data) ]
  end.

(** ** Reference instances and small inputs *)

Module Fixture.
Import Ontology Numpy Igraph Pandas.

(** A sort that keeps rows of equal key in their order: insertion from
    the right, a row going in front of the rows whose key is not larger. *)
Fixpoint insert_row {A} (by_ : A → list Z) (x : A) (l : list A) : list A :=
  match l with
  | [] => [x]
  | y :: l' =>
      if lex_lt (by_ x) (by_ y) then y :: insert_row by_ x l' else x :: l
  end.

Definition stable_sort_values (A : Type) (by_ : A → list Z) (l : list A)
    : list A :=
  foldr (insert_row by_) [] l.



(** One point per vertex. *)
Definition diagonal_layout (g : Graph) : list (list Q) :=
  (λ i, [inject_Z (Z.of_nat i); inject_Z (Z.of_nat i)]) <$> seq 0 (vcount g).

(** Two partitions: one community for all, one community per vertex. *)
Definition one_community (g : Graph) : list nat := replicate (vcount g) 0.
Definition singletons (g : Graph) : list nat := seq 0 (vcount g).

(** A stand-in for the logarithm, whose values no property depends on. *)
Definition no_log (z : Z) : Q := inject_Z z.

(** Three terms below a root. *)
Definition annot3 : list Annot.row :=
  [ Annot.mk "R" "root" 0 100; Annot.mk "A" "a" 1 10;
    Annot.mk "B" "b" 2 20; Annot.mk "C" "c" 2 5 ]%string%Z.

Definition group3 : list Group.row :=
  [ Group.mk "A" "a" 10 1; Group.mk "B" "b" 20 2;
    Group.mk "C" "c" 5 3 ]%string%Z.

Definition onto3 : graph_t :=
  {[ "A" := ["R"]; "B" := ["A"]; "C" := ["A"] ]}%string.

(** Similarities A-B 0.8, A-C 0.3, B-C 0.6; index 0 is the root. *)
Definition sim4 : ndarray :=
  [ [1; 0; 0; 0]; [0; 1; 8 # 10; 3 # 10];
    [0; 8 # 10; 1; 6 # 10]; [0; 3 # 10; 6 # 10; 1] ]%Q.

Definition store4 : store := {[ 7 := sim4 ]}.

(** What the request over [group3] and [store4] returns with the
    diagonal layout and one community for all rows. *)
Definition elements3 : list element :=
  [ Node (mk_node_data "A" "a" (12 * 10) false None "a") (0 * 50, 0 * 50) "0";
    Node (mk_node_data "B" "b" (22 * 10) true (Some "a") "a")
      (1 * 50, 1 * 50) "0";
    Node (mk_node_data "C" "c" (7 * 10) false None "a") (2 * 50, 2 * 50) "0";
    Edge "A" "B" ((8 # 10) * 5) "0"; Edge "B" "C" ((6 # 10) * 5) "0" ]%Q.

Definition stylesheet3 : list style_rule := stylesheet [(0, "#2E91E5")].

(** Forty-nine terms without any similarity between two of them. *)
Definition group49 : list Group.row :=
  (λ i, Group.mk (pretty i) (pretty i) 1 i) <$> seq 0 49.

Definition sim49 : ndarray := replicate 49 (replicate 49 0%Q).

Definition store49 : store := {[ 7 := sim49 ]}.

(** Two terms with a common path: [X] below [Y], [Y] a root. *)
Definition chain_graph : graph_t := {[ "X" := ["Y"] ]}%string.

(** A graph with the cycle [A → B → A], and the way out [B → R]. *)
Definition cyclic_graph : graph_t :=
  {[ "A" := ["B"]; "B" := ["A"; "R"] ]}%string.

(** A request over that graph: the terms [A] and [B] in one community. *)
Definition annot_cyclic : list Annot.row :=
  [ Annot.mk "R" "root" 0 100; Annot.mk "A" "a" 1 10;
    Annot.mk "B" "b" 2 20 ]%string%Z.

Definition group2 : list Group.row :=
  [ Group.mk "A" "a" 10 0; Group.mk "B" "b" 20 1 ]%string%Z.

Definition store2 : store := {[ 7 := [ [1; 9 # 10]; [9 # 10; 1] ]%Q ]}.



(** The order of [sort_values(['rank', 'hits', 'med_stat'],
    ascending=(True, False, False))], and an insertion sort by it. *)
Definition ranked_before (a b : Wilcox.row) : bool :=
  Qltb (Wilcox.rank a) (Wilcox.rank b)
  || (Qeq_bool (Wilcox.rank a) (Wilcox.rank b)
      && (Qltb (Wilcox.hits b) (Wilcox.hits a)
          || (Qeq_bool (Wilcox.hits a) (Wilcox.hits b)
              && Qltb (Wilcox.med_stat b) (Wilcox.med_stat a)))).

Fixpoint insert_ranked (x : Wilcox.row) (l : list Wilcox.row)
    : list Wilcox.row :=
  match l with
  | [] => [x]
  | y :: l' =>
      if ranked_before y x then y :: insert_ranked x l' else x :: l
  end.

Definition sort_ranked (l : list Wilcox.row) : list Wilcox.row :=
  foldr insert_ranked [] l.

(** Test results of two tissues; the rows of [Brain] in rank order are
    those of [group3]. *)
Definition wilcox4 : list Wilcox.row :=
  [ Wilcox.mk "Brain" 2 5 1 "B" "b" 20 2;
    Wilcox.mk "Liver" 1 3 1 "C" "c" 5 3;
    Wilcox.mk "Brain" 1 7 2 "A" "a" 10 1;
    Wilcox.mk "Brain" 3 1 1 "C" "c" 5 3 ]%string%Q.

(** Three samples (the sample of index 1 was dropped from the table) and
    a latent space of four rows. *)
Definition samples3 : list Sample.row :=
  [ Sample.mk 0 "GTEx" "Brain"; Sample.mk 2 "GTEx" "Liver";
    Sample.mk 3 "GTEx" "Brain" ]%string.

Definition z4 : ndarray := [ [1; 2]; [3; 4]; [5; 6]; [7; 8] ]%Q.

(** A stand-in for the reduction: the first two coordinates. *)
Definition first_two (a : ndarray) : list (Q * Q) :=
  (λ row, (default 0%Q (row !! 0), default 0%Q (row !! 1))) <$> a.

End Fixture.

(** * Properties *)

(** ** Facts about the ancestor-path search *)

Module OntologyFacts.
Import Ontology.

Lemma elem_of_concat {A} (x : A) (ls : list (list A)) :
  x ∈ concat ls ↔ ∃ l, x ∈ l ∧ l ∈ ls.
Proof.
  induction ls as [|l ls IH]; simpl.
  - split; [by intros ?%elem_of_nil|]. by intros (l & _ & ?%elem_of_nil).
  - rewrite elem_of_app, IH. split.
    + intros [?|(l' & ? & ?)]; [exists l|exists l']; split; try done;
        [by left|by right].
    + intros (l' & ? & [->|?]%elem_of_cons); [by left|right; eauto].
Qed.

Lemma find_all_paths_fuel_mono fuel fuel' graph start end_ path ps :
  fuel ≤ fuel' →
  find_all_paths_fuel fuel graph start end_ path = Some ps →
  find_all_paths_fuel fuel' graph start end_ path = Some ps.
Proof.
  revert fuel' start path ps.
  induction fuel as [|fuel IH]; intros fuel' start path ps Hle; [done|].
  destruct fuel' as [|fuel']; [lia|]. simpl.
  case_decide; [done|].
  destruct (graph !! start) as [nbrs|]; [|done].
  intros Hps. apply fmap_Some in Hps as (pss & Hm & ->).
  apply fmap_Some. exists pss. split; [|done].
  apply mapM_Some. apply mapM_Some in Hm.
  eapply Forall2_impl; [exact Hm|].
  intros node r Hr. apply IH; [lia|done].
Qed.

(** Enough fuel: the keys of the graph not yet on the path bound the
    remaining call depth. *)
Lemma find_all_paths_fuel_fresh fuel graph start end_ path :
  start ∉ path →
  size (dom graph ∖ list_to_set path : gset string) < fuel →
  is_Some (find_all_paths_fuel fuel graph start end_ path).
Proof.
  revert start path.
  induction fuel as [|fuel IH]; intros start path Hfresh Hsz; [lia|].
  simpl. case_decide; [by eexists|].
  destruct (graph !! start) as [nbrs|] eqn:Hg; [|by eexists].
  apply fmap_is_Some, mapM_is_Some, Forall_forall.
  intros node Hnode. apply list_elem_of_filter in Hnode as [Hnot _].
  apply IH; [done|].
  assert (dom graph ∖ list_to_set (path ++ [start])
            ⊂ (dom graph ∖ list_to_set path : gset string)) as Hsub.
  { split.
    - set_solver.
    - intros Hc. assert (start ∈ dom graph) as Hd by (apply elem_of_dom; eauto).
      assert (start ∈ (dom graph ∖ list_to_set path : gset string)) as Hin
        by set_solver.
      apply Hc in Hin. set_solver. }
  apply subset_size in Hsub. lia.
Qed.

Lemma find_all_paths_fuel_enough fuel graph start end_ path :
  2 + size graph ≤ fuel →
  is_Some (find_all_paths_fuel fuel graph start end_ path).
Proof.
  intros Hfuel. destruct fuel as [|fuel]; [lia|].
  simpl. case_decide; [by eexists|].
  destruct (graph !! start) as [nbrs|] eqn:Hg; [|by eexists].
  apply fmap_is_Some, mapM_is_Some, Forall_forall.
  intros node Hnode. apply list_elem_of_filter in Hnode as [Hnot _].
  apply find_all_paths_fuel_fresh; [done|].
  assert (size (dom graph ∖ list_to_set (path ++ [start]) : gset string)
            ≤ size (dom graph)) as Hsz.
  { apply subseteq_size. set_solver. }
  rewrite size_dom in Hsz. lia.
Qed.

(** The total function agrees with every run that had enough fuel. *)
Lemma find_all_paths_spec graph start end_ path :
  find_all_paths_fuel (2 + size graph) graph start end_ path
    = Some (find_all_paths graph start end_ path).
Proof.
  unfold find_all_paths.
  destruct (find_all_paths_fuel_enough (2 + size graph) graph start end_ path)
    as [ps Hps]; [lia|].
  by rewrite Hps.
Qed.

Lemma find_all_paths_fuel_agree fuel graph start end_ path ps :
  find_all_paths_fuel fuel graph start end_ path = Some ps →
  find_all_paths graph start end_ path = ps.
Proof.
  intros Hps. pose proof (find_all_paths_spec graph start end_ path) as Hs.
  destruct (decide (fuel ≤ 2 + size graph)) as [Hle|Hgt].
  - eapply find_all_paths_fuel_mono in Hps; [|exact Hle]. congruence.
  - eapply find_all_paths_fuel_mono in Hs; [|instantiate (1 := fuel); lia].
    congruence.
Qed.

(** Soundness of the search: a returned path extends the accumulated
    one by a walk from [start] to [end_] that repeats no node. *)
Lemma find_all_paths_fuel_sound fuel graph start end_ path ps p :
  find_all_paths_fuel fuel graph start end_ path = Some ps →
  p ∈ ps →
  ∃ q, p = path ++ start :: q ∧ walk graph start q end_ ∧ NoDup q
       ∧ ∀ x, x ∈ q → x ∉ path ++ [start].
Proof.
  revert start path ps p.
  induction fuel as [|fuel IH]; intros start path ps p; [done|].
  simpl. case_decide as Heq.
  - intros [= <-] Hp. apply list_elem_of_singleton in Hp as ->. subst.
    exists []. split_and!; [done|constructor|constructor|].
    intros x Hx. by apply elem_of_nil in Hx.
  - destruct (graph !! start) as [nbrs|] eqn:Hg.
    + intros Hps Hp. apply fmap_Some in Hps as (pss & Hm & ->).
      apply elem_of_concat in Hp as (ps' & Hp & Hps').
      apply mapM_Some in Hm.
      apply list_elem_of_lookup in Hps' as [i Hi].
      destruct (Forall2_lookup_r _ _ _ _ _ Hm Hi) as (node & Hnode & Hrec).
      apply list_elem_of_lookup_2 in Hnode.
      apply list_elem_of_filter in Hnode as [Hnot Hnbr].
      destruct (IH _ _ _ _ Hrec Hp) as (q & -> & Hw & Hnd & Hdisj).
      exists (node :: q). split_and!.
      * by rewrite <-app_assoc.
      * by econstructor.
      * constructor; [|done]. intros Hin. apply Hdisj in Hin. set_solver.
      * intros x Hx. apply elem_of_cons in Hx as [->|Hx]; [done|].
        apply Hdisj in Hx. set_solver.
    + intros [= <-] Hp. by apply elem_of_nil in Hp.
Qed.

Lemma find_all_paths_sound graph start end_ p :
  p ∈ find_all_paths graph start end_ [] →
  ∃ q, p = start :: q ∧ walk graph start q end_ ∧ NoDup (start :: q).
Proof.
  intros Hp.
  destruct (find_all_paths_fuel_sound _ _ _ _ _ _ _
              (find_all_paths_spec graph start end_ []) Hp)
    as (q & -> & Hw & Hnd & Hdisj).
  exists q. split_and!; [done|done|].
  constructor; [|done]. intros Hin. apply Hdisj in Hin. set_solver.
Qed.

Lemma walk_end_elem graph s q e : walk graph s q e → e ∈ s :: q.
Proof.
  induction 1 as [s|s n q e nbrs Hg Hn Hw IH]; [by left|by right].
Qed.

(** Completeness of the search: every walk from [start] to [end_] that
    repeats no node and avoids the accumulated path is returned. *)
Lemma find_all_paths_fuel_complete graph start end_ q :
  walk graph start q end_ →
  ∀ fuel path ps,
    NoDup q →
    (∀ x, x ∈ q → x ∉ path ++ [start]) →
    find_all_paths_fuel fuel graph start end_ path = Some ps →
    path ++ start :: q ∈ ps.
Proof.
  induction 1 as [s|s n q e nbrs Hg Hn Hw IH]; intros fuel path ps Hnd Hdisj.
  - destruct fuel as [|fuel]; [done|]. simpl.
    rewrite decide_True by done. intros [= <-]. by left.
  - destruct fuel as [|fuel]; [done|]. simpl.
    assert (s ≠ e) as Hne.
    { intros ->. apply walk_end_elem in Hw. apply Hdisj in Hw. set_solver. }
    rewrite decide_False by done. rewrite Hg.
    intros Hps. apply fmap_Some in Hps as (pss & Hm & ->).
    apply mapM_Some in Hm.
    assert (n ∈ filter (λ node, node ∉ path ++ [s]) nbrs) as Hin.
    { apply list_elem_of_filter. split; [|done]. apply Hdisj. by left. }
    apply list_elem_of_lookup in Hin as [i Hi].
    destruct (Forall2_lookup_l _ _ _ _ _ Hm Hi) as (psn & Hpsn & Hrec).
    apply elem_of_concat. exists psn. split.
    + replace (path ++ s :: n :: q) with ((path ++ [s]) ++ n :: q)
        by (by rewrite <-app_assoc).
      eapply IH; [by eapply NoDup_cons_1_2| |exact Hrec].
      intros x Hx. rewrite elem_of_app, list_elem_of_singleton.
      intros [Hp| ->].
      * eapply Hdisj; [by right|done].
      * by apply NoDup_cons_1_1 in Hnd.
    + by eapply list_elem_of_lookup_2.
Qed.

Lemma find_all_paths_complete graph start end_ q :
  walk graph start q end_ → NoDup (start :: q) →
  start :: q ∈ find_all_paths graph start end_ [].
Proof.
  intros Hw Hnd.
  apply (find_all_paths_fuel_complete graph start end_ q Hw
           (2 + size graph) [] _).
  - by eapply NoDup_cons_1_2.
  - intros x Hx. simpl. rewrite list_elem_of_singleton. intros ->.
    by apply NoDup_cons_1_1 in Hnd.
  - apply find_all_paths_spec.
Qed.

(** The set the source calls [ancestors], before the fallback. *)
Lemma get_ancestors_unfold node roots graph :
  get_ancestors node roots graph =
    let ancestors : gset string :=
      list_to_set (concat (concat (filter (λ path, 0 < length path)
        ((λ root, find_all_paths graph node root []) <$> roots)))) in
    if decide (0 < size ancestors) then ancestors else {[ node ]}.
Proof. done. Qed.

Lemma elem_of_ancestors_paths x node roots graph :
  x ∈ (list_to_set (concat (concat (filter (λ path, 0 < length path)
        ((λ root, find_all_paths graph node root []) <$> roots)))) : gset string)
  ↔ ∃ root p, root ∈ roots ∧ p ∈ find_all_paths graph node root [] ∧ x ∈ p.
Proof.
  rewrite elem_of_list_to_set, elem_of_concat. split.
  - intros (p & Hx & Hp). apply elem_of_concat in Hp as (ps & Hp & Hps).
    apply list_elem_of_filter in Hps as [_ Hps].
    apply list_elem_of_fmap in Hps as (root & -> & Hroot). eauto.
  - intros (root & p & Hroot & Hp & Hx). exists p. split; [done|].
    apply elem_of_concat. exists (find_all_paths graph node root []).
    split; [done|]. apply list_elem_of_filter. split.
    + destruct (find_all_paths graph node root []); [by apply elem_of_nil in Hp|].
      simpl. lia.
    + apply list_elem_of_fmap. eauto.
Qed.

(** C2. [get_ancestors] never returns the empty set, and for a node from
    which no walk of the graph reaches any root it returns exactly the
    singleton of the node. *)
Theorem get_ancestors_nonempty_fallback (node : string) (roots : list string)
    (graph : graph_t) :
  get_ancestors node roots graph ≠ ∅
  ∧ ((∀ root q, root ∈ roots → ¬ walk graph node q root) →
     get_ancestors node roots graph = {[ node ]}).
Proof.
  rewrite get_ancestors_unfold. simpl. split.
  - case_decide as Hsz.
    + intros Heq. rewrite Heq, size_empty in Hsz. lia.
    + apply non_empty_singleton_L.
  - intros Hno. case_decide as Hsz; [|done]. exfalso.
    apply size_pos_elem_of in Hsz as [x Hx].
    apply elem_of_ancestors_paths in Hx as (root & p & Hroot & Hp & _).
    apply find_all_paths_sound in Hp as (q & _ & Hw & _).
    by eapply Hno.
Qed.

Lemma get_ancestors_isolated_witness :
  get_ancestors "X" ["R"; "S"] {[ "A" := ["R"] ]} = {[ "X" ]}.
Proof.
  apply (get_ancestors_nonempty_fallback "X" ["R"; "S"] {[ "A" := ["R"] ]}).
  intros root q Hroot Hw. inversion Hw; subst.
  - set_solver.
  - by rewrite lookup_singleton_ne in H.
Defined.

(** C10. A node is always among its own ancestors: every path returned
    for it starts with it, and the fallback is the node itself.  Hence
    the common ancestors of a group can contain members of the group:
    those of a single node always contain it, and in [Fixture.chain_graph] the
    common ancestors of [X] and [Y] are [Y] itself. *)
Theorem get_ancestors_contains_node (node : string) (roots : list string)
    (graph : graph_t) :
  node ∈ get_ancestors node roots graph
  ∧ (∀ root p, p ∈ find_all_paths graph node root [] → head p = Some node)
  ∧ (∃ s, get_comm_ancestors [node] roots graph = Ok s ∧ node ∈ s)
  ∧ get_comm_ancestors ["X"; "Y"] ["Y"] Fixture.chain_graph = Ok {[ "Y" ]}.
Proof.
  assert (∀ root p, p ∈ find_all_paths graph node root [] → head p = Some node)
    as Hhead.
  { intros root p Hp. by apply find_all_paths_sound in Hp as (q & -> & _). }
  assert (node ∈ get_ancestors node roots graph) as Hself.
  { rewrite get_ancestors_unfold. simpl. case_decide as Hsz; [|set_solver].
    apply size_pos_elem_of in Hsz as [x Hx].
    apply elem_of_ancestors_paths in Hx as (root & p & Hroot & Hp & _).
    apply elem_of_ancestors_paths. exists root, p. split_and!; [done..|].
    apply Hhead in Hp. destruct p; simplify_eq/=. by left. }
  split_and!; [done|done| |by vm_compute].
  exists (get_ancestors node roots graph). by split.
Qed.

(** C8 (as stated, refuted).  On [Fixture.cyclic_graph] the search from
    [A] to [R] meets the neighbour [A] of [B] again while [A] is on the
    path; nothing is raised: the neighbour is skipped, the search goes on
    and returns the path through [B], the common ancestors are computed,
    and the request over this graph returns a payload. *)
Lemma find_all_paths_cycle_not_fatal :
  revisits (2 + size Fixture.cyclic_graph) Fixture.cyclic_graph "A" "R" []
    = true
  ∧ find_all_paths Fixture.cyclic_graph "A" "R" [] = [["A"; "B"; "R"]]
  ∧ get_comm_ancestors ["A"; "B"] ["R"] Fixture.cyclic_graph
      = Ok {[ "B"; "R" ]}
  ∧ ∃ payload,
      (get_cytoscape_components Fixture.annot_cyclic Fixture.cyclic_graph
         Fixture.stable_sort_values Fixture.diagonal_layout
         Fixture.one_community Fixture.no_log Fixture.group2 7
         Fixture.store2).2 = Ok payload.
Proof.
  split_and!; [by vm_compute..|]. eexists. by vm_compute.
Qed.

(** C8 (amended).  A neighbour already on the current path is skipped
    and the search goes on: on every graph, cyclic or not, the search
    returns (with any fuel above the number of keys plus one), and what
    it returns are exactly the walks from [start] to [end_] that repeat
    no node. *)
Theorem find_all_paths_simple_walks (graph : graph_t) (start end_ : string) :
  (∀ fuel, 2 + size graph ≤ fuel →
     find_all_paths_fuel fuel graph start end_ []
       = Some (find_all_paths graph start end_ []))
  ∧ (∀ p, p ∈ find_all_paths graph start end_ [] ↔
       ∃ q, p = start :: q ∧ walk graph start q end_ ∧ NoDup (start :: q)).
Proof.
  split.
  - intros fuel Hfuel. eapply find_all_paths_fuel_mono; [exact Hfuel|].
    apply find_all_paths_spec.
  - intros p. split; [apply find_all_paths_sound|].
    intros (q & -> & Hw & Hnd). by apply find_all_paths_complete.
Qed.

End OntologyFacts.

(** ** The similarity graph and the store *)

Module GraphFacts.
Import Numpy Igraph Pandas.

Lemma mask_set_less (row : list Q) :
  mask_set 0 row (map (λ x, Qltb x (1 # 2)) row) = map threshold row.
Proof.
  unfold mask_set. induction row as [|x row IH]; [done|].
  simpl. by rewrite IH.
Qed.

Lemma setitem_less (a : ndarray) :
  zip_with (mask_set 0) a (map (map (λ x, Qltb x (1 # 2))) a)
    = map (map threshold) a.
Proof.
  induction a as [|row a IH]; [done|].
  simpl. by rewrite mask_set_less, IH.
Qed.

(** What lines 147-154 do to the store: two new arrays, the second one
    thresholded in place, nothing else touched. *)
Lemma similarity_graph_run group wsem (σ : store) m :
  σ !! wsem = Some m →
  match take_indices m (Group.ind <$> group) with
  | Raise e => similarity_graph group wsem σ = (σ, Raise e)
  | Ok rows =>
      ∃ r1, σ !! r1 = None ∧
        match take_columns rows (Group.ind <$> group) with
        | Raise e =>
            similarity_graph group wsem σ = (<[r1 := rows]> σ, Raise e)
        | Ok sub =>
            ∃ r2, σ !! r2 = None ∧ r1 ≠ r2 ∧
              similarity_graph group wsem σ =
                (<[r2 := map (map threshold) sub]>
                   (<[r2 := sub]> (<[r1 := rows]> σ)),
                 Weighted_Adjacency (map (map threshold) sub))
        end
  end.
Proof.
  intros Hm.
  unfold similarity_graph, getitem_rows, getitem_cols, less, setitem_mask.
  unfold mbind, M_bind, mret, M_ret, read, write, alloc, lift.
  rewrite Hm.
  destruct (take_indices m (Group.ind <$> group)) as [rows|e]; [|done].
  exists (fresh (dom σ)).
  split; [apply not_elem_of_dom, is_fresh|].
  rewrite lookup_insert_eq.
  destruct (take_columns rows (Group.ind <$> group)) as [sub|e]; [|done].
  set (σ1 := <[fresh (dom σ) := rows]> σ).
  assert (σ1 !! fresh (dom σ1) = None) as Hr2.
  { apply not_elem_of_dom, is_fresh. }
  exists (fresh (dom σ1)).
  assert (fresh (dom σ) ≠ fresh (dom σ1)) as Hne.
  { intros Heq. rewrite <-Heq in Hr2. unfold σ1 in Hr2.
    by rewrite lookup_insert_eq in Hr2. }
  split_and!; [|done|].
  { unfold σ1 in Hr2. by rewrite lookup_insert_ne in Hr2. }
  rewrite !lookup_insert_eq. by rewrite setitem_less.
Qed.

Lemma Qltb_spec (x y : Q) : Qltb x y = true ↔ (x < y)%Q.
Proof.
  unfold Qltb. rewrite negb_true_iff, <-not_true_iff_false, Qle_bool_iff.
  split; [apply Qnot_le_lt|apply Qlt_not_le].
Qed.

Lemma threshold_above (x : Q) : (1 # 2 <= x)%Q → threshold x = x.
Proof.
  intros Hx. unfold threshold.
  destruct (Qltb x (1 # 2)) eqn:Hlt; [|done].
  apply Qltb_spec in Hlt. lra.
Qed.

Lemma threshold_below (x : Q) : ¬ (1 # 2 <= x)%Q → threshold x = 0%Q.
Proof.
  intros Hx. unfold threshold.
  destruct (Qltb x (1 # 2)) eqn:Hlt; [done|].
  apply not_true_iff_false in Hlt. rewrite Qltb_spec in Hlt. lra.
Qed.

Lemma threshold_nonzero (x : Q) :
  Qeq_bool (threshold x) 0 = false ↔ (1 # 2 <= x)%Q.
Proof.
  destruct (Qlt_le_dec x (1 # 2)) as [Hlt|Hle].
  - rewrite threshold_below by lra. split; [done|lra].
  - rewrite threshold_above by done. split; [done|].
    intros _. apply not_true_iff_false. rewrite Qeq_bool_iff. lra.
Qed.

Lemma threshold_proper (x y : Q) : (x == y)%Q → (threshold x == threshold y)%Q.
Proof.
  intros Hxy. destruct (Qlt_le_dec x (1 # 2)) as [Hlt|Hle].
  - rewrite !threshold_below by lra. reflexivity.
  - by rewrite !threshold_above by lra.
Qed.

(** ** Sub-matrices *)

Lemma take_indices_ok {A} (l : list A) (idx : list nat) :
  Forall (λ i, i < length l) idx →
  ∃ xs, take_indices l idx = Ok xs ∧ length xs = length idx
        ∧ ∀ k i, idx !! k = Some i → xs !! k = l !! i.
Proof.
  induction 1 as [|i idx Hi Hidx (xs & Hxs & Hlen & Hlook)].
  - by exists [].
  - apply lookup_lt_is_Some_2 in Hi as [x Hx].
    exists (x :: xs). simpl. unfold index. rewrite Hx, Hxs.
    split_and!; [done|by rewrite Hlen|].
    intros [|k] j Hk; simplify_eq/=; [done|by apply Hlook].
Qed.

Lemma take_columns_ok (a : ndarray) (idx : list nat) (n : nat) :
  Forall (λ row, length row = n) a →
  Forall (λ j, j < n) idx →
  ∃ sub, take_columns a idx = Ok sub ∧ length sub = length a
         ∧ Forall (λ row, length row = length idx) sub
         ∧ ∀ k c row j, a !! k = Some row → idx !! c = Some j →
             sub !! k ≫= (.!! c) = row !! j.
Proof.
  intros Ha Hidx.
  induction Ha as [|row a Hrow Ha (sub & Hsub & Hlen & Hall & Hlook)].
  - exists []. by split_and!.
  - destruct (take_indices_ok row idx) as (r & Hr & Hrlen & Hrlook).
    { by rewrite Hrow. }
    exists (r :: sub). simpl. rewrite Hr, Hsub.
    split_and!; [done|by rewrite Hlen|by constructor|].
    intros [|k] c row' j Hk Hc; simplify_eq/=; [by apply Hrlook|].
    by eapply Hlook.
Qed.

Lemma entry_fmap (f : Q → Q) (m : ndarray) (i j : nat) :
  f 0%Q = 0%Q → entry (map (map f) m) i j = f (entry m i j).
Proof.
  intros Hf. unfold entry.
  change (map (map f) m) with (map f <$> m). rewrite list_lookup_fmap.
  destruct (m !! i) as [row|]; simpl; [|done].
  change (map f row) with (f <$> row). rewrite list_lookup_fmap.
  by destruct (row !! j).
Qed.

(** ** Edges of the weighted adjacency graph *)

Lemma elem_of_pair_edge m i j e :
  e ∈ pair_edge m i j ↔
    let w := if Qltb (entry m i j) (entry m j i)
             then entry m j i else entry m i j in
    Qeq_bool w 0 = false ∧ e = (i, j, w).
Proof.
  unfold pair_edge. simpl.
  destruct (Qeq_bool _ 0).
  - split; [by intros ?%elem_of_nil|by intros [? _]].
  - rewrite list_elem_of_singleton. naive_solver.
Qed.

Lemma elem_of_es_Weighted_Adjacency m g a b w :
  Weighted_Adjacency m = Ok g →
  (a, b, w) ∈ es g ↔ a < b < length m ∧ (a, b, w) ∈ pair_edge m a b.
Proof.
  unfold Weighted_Adjacency. case_decide; [|done]. intros [= <-]. simpl.
  rewrite list_elem_of_bind. split.
  - intros (i & Hin & Hi). apply list_elem_of_bind in Hin as (j & Hin & Hj).
    apply elem_of_seq in Hi, Hj.
    pose proof Hin as Hin'. apply elem_of_pair_edge in Hin' as [_ [= -> -> _]].
    split; [lia|done].
  - intros [Hab Hin]. exists a. split; [|apply elem_of_seq; lia].
    apply list_elem_of_bind. exists b. split; [done|apply elem_of_seq; lia].
Qed.

Lemma Weighted_Adjacency_square m :
  Forall (λ row, length row = length m) m →
  ∃ g, Weighted_Adjacency m = Ok g ∧ vcount g = length m.
Proof.
  intros Hsq. unfold Weighted_Adjacency. rewrite decide_True by done.
  by eexists.
Qed.

Lemma adjacent_threshold thr g i j (x y : Q) :
  Weighted_Adjacency thr = Ok g →
  i < length thr → j < length thr → i ≠ j →
  entry thr i j = threshold x → entry thr j i = threshold y →
  (x == y)%Q →
  ((∃ w, adjacent g i j w) ↔ (1 # 2 <= x)%Q)
  ∧ ∀ w, adjacent g i j w → (w == x)%Q.
Proof.
  intros Hg Hi Hj Hne Hij Hji Hxy.
  pose proof (threshold_proper x y Hxy) as Hthr.
  assert (Qltb (threshold x) (threshold y) = false) as Hlt1.
  { apply not_true_iff_false. rewrite Qltb_spec. lra. }
  assert (Qltb (threshold y) (threshold x) = false) as Hlt2.
  { apply not_true_iff_false. rewrite Qltb_spec. lra. }
  assert (∀ w, adjacent g i j w ↔
            (1 # 2 <= x)%Q ∧ w = (if decide (i < j) then x else y)) as Hadj.
  { intros w. unfold adjacent.
    rewrite !(elem_of_es_Weighted_Adjacency thr g) by done.
    rewrite !elem_of_pair_edge. simpl. rewrite Hij, Hji, Hlt1, Hlt2.
    rewrite !threshold_nonzero.
    destruct (decide (i < j)) as [Hlt|Hge].
    - split.
      + intros [(_ & Hx & [= ->])|([? _] & _)]; [|lia].
        by rewrite threshold_above.
      + intros [Hx ->]. left. split_and!; [lia..|done|].
        by rewrite threshold_above.
    - assert ((1 # 2 <= y)%Q ↔ (1 # 2 <= x)%Q) as Hyx by (split; lra).
      split.
      + intros [([? _] & _)|(_ & Hy & [= ->])]; [lia|].
        rewrite threshold_above by done. by rewrite <-Hyx.
      + intros [Hx ->]. right. split_and!; [lia..|by rewrite Hyx|].
        by rewrite threshold_above by (by rewrite Hyx). }
  split.
  - split.
    + intros [w Hw]. by apply Hadj in Hw as [? _].
    + intros Hx. eexists. apply Hadj. by split.
  - intros w Hw. apply Hadj in Hw as [_ ->]. case_decide; [reflexivity|].
    by symmetry.
Qed.

(** C1. On a square, symmetric similarity matrix that covers the indices
    of the group, lines 147-154 return a graph with one vertex per group
    member in which two distinct members are joined exactly when their
    similarity is at least 0.5, and every edge between them carries that
    similarity as its weight. *)
Theorem similarity_graph_edges group wsem (σ : store) m n :
  σ !! wsem = Some m →
  length m = n →
  Forall (λ row, length row = n) m →
  Forall (λ r, Group.ind r < n) group →
  (∀ a b, (entry m a b == entry m b a)%Q) →
  ∃ σ' g,
    similarity_graph group wsem σ = (σ', Ok g)
    ∧ vcount g = length group
    ∧ ∀ i j ri rj,
        group !! i = Some ri → group !! j = Some rj → i ≠ j →
        let s := entry m (Group.ind ri) (Group.ind rj) in
        ((∃ w, adjacent g i j w) ↔ (1 # 2 <= s)%Q)
        ∧ ∀ w, adjacent g i j w → (w == s)%Q.
Proof.
  intros Hm Hlen Hsq Hind Hsym.
  set (idx := Group.ind <$> group).
  assert (Forall (λ i, i < n) idx) as Hidx.
  { unfold idx. by apply Forall_fmap. }
  destruct (take_indices_ok m idx) as (rows & Hrows & Hrlen & Hrlook).
  { by rewrite Hlen. }
  assert (Forall (λ row, length row = n) rows) as Hrsq.
  { apply Forall_lookup. intros k row Hk.
    destruct (lookup_lt_is_Some_2 idx k) as [i Hi].
    { rewrite <-Hrlen. by eapply lookup_lt_Some. }
    rewrite (Hrlook k i Hi) in Hk.
    by eapply (proj1 (Forall_lookup _ _) Hsq). }
  destruct (take_columns_ok rows idx n Hrsq Hidx)
    as (sub & Hsub & Hslen & Hssq & Hslook).
  pose proof (similarity_graph_run group wsem σ m Hm) as Hrun.
  fold idx in Hrun. rewrite Hrows in Hrun.
  destruct Hrun as (r1 & _ & Hrun). rewrite Hsub in Hrun.
  destruct Hrun as (r2 & _ & _ & Hrun).
  set (thr := map (map threshold) sub) in *.
  assert (length thr = length group) as Hthrlen.
  { unfold thr, idx in *. by rewrite length_map, Hslen, Hrlen, length_fmap. }
  destruct (Weighted_Adjacency_square thr) as (g & Hg & Hvc).
  { unfold thr. rewrite length_map. apply Forall_fmap.
    eapply Forall_impl; [exact Hssq|]. intros row Hrow. simpl.
    rewrite length_map, Hrow, Hslen, Hrlen. done. }
  eexists _, g. split_and!; [by rewrite Hrun, Hg|by rewrite Hvc|].
  assert (∀ i j ri rj, group !! i = Some ri → group !! j = Some rj →
            entry thr i j
              = threshold (entry m (Group.ind ri) (Group.ind rj))) as Hentry.
  { intros i j ri rj Hi Hj. unfold thr. rewrite entry_fmap by done.
    f_equal. unfold entry.
    assert (idx !! i = Some (Group.ind ri)) as Hii
      by (unfold idx; by rewrite list_lookup_fmap, Hi).
    assert (idx !! j = Some (Group.ind rj)) as Hjj
      by (unfold idx; by rewrite list_lookup_fmap, Hj).
    destruct (lookup_lt_is_Some_2 rows i) as [row Hrow].
    { rewrite Hrlen. by eapply lookup_lt_Some. }
    rewrite (Hslook i j row _ Hrow Hjj).
    rewrite <-(Hrlook i _ Hii), Hrow. done. }
  intros i j ri rj Hi Hj Hne. simpl.
  eapply adjacent_threshold; [exact Hg| | |done| | |].
  - rewrite Hthrlen. by eapply lookup_lt_Some.
  - rewrite Hthrlen. by eapply lookup_lt_Some.
  - by eapply Hentry.
  - by eapply Hentry.
  - apply Hsym.
Qed.

Lemma similarity_graph_edges_witness :
  ∃ σ' g,
    similarity_graph Fixture.group3 7 Fixture.store4 = (σ', Ok g)
    ∧ vcount g = 3
    ∧ ∀ i j ri rj,
        Fixture.group3 !! i = Some ri → Fixture.group3 !! j = Some rj →
        i ≠ j →
        let s := entry Fixture.sim4 (Group.ind ri) (Group.ind rj) in
        ((∃ w, adjacent g i j w) ↔ (1 # 2 <= s)%Q)
        ∧ ∀ w, adjacent g i j w → (w == s)%Q.
Proof.
  apply (similarity_graph_edges Fixture.group3 7 Fixture.store4
           Fixture.sim4 4).
  - reflexivity.
  - reflexivity.
  - by repeat constructor.
  - repeat constructor; simpl; lia.
  - intros a b.
    do 4 (try destruct a as [|a]); do 4 (try destruct b as [|b]);
      try reflexivity;
      unfold entry; simpl; try reflexivity;
      rewrite ?lookup_nil; try reflexivity;
      by destruct a.
Defined.

(** The store after the whole request differs from the one before only
    in references that were unused before. *)
Lemma get_cytoscape_components_frame annot onto_graph sort_values layout
    community_multilevel np_log group wsem (σ : store) m :
  σ !! wsem = Some m →
  ∀ r a, σ !! r = Some a →
    (get_cytoscape_components annot onto_graph sort_values layout
       community_multilevel np_log group wsem σ).1 !! r = Some a.
Proof.
  intros Hm r a Hr.
  pose proof (similarity_graph_run group wsem σ m Hm) as Hrun.
  unfold get_cytoscape_components, mbind, M_bind, lift.
  destruct (take_indices m (Group.ind <$> group)) as [rows|e].
  - destruct Hrun as (r1 & Hr1 & Hrun).
    assert (r ≠ r1) as Hne1 by congruence.
    destruct (take_columns rows (Group.ind <$> group)) as [sub|e].
    + destruct Hrun as (r2 & Hr2 & Hne & ->).
      assert (r ≠ r2) as Hne2 by congruence.
      destruct (Weighted_Adjacency _); simpl;
        by rewrite !lookup_insert_ne.
    + rewrite Hrun. simpl. by rewrite lookup_insert_ne.
  - by rewrite Hrun.
Qed.

(** C9. Whatever the group, and whether the request succeeds or raises,
    the array [wsem_sim] refers to is the same after the request, and so
    is every array the store held before.  When the request succeeds, the
    thresholded sub-matrix sits under a reference that was unused before:
    the rows and columns are copied out by advanced indexing and the
    entries below 0.5 are zeroed in the copy. *)
Theorem wsem_sim_unchanged annot onto_graph sort_values layout
    community_multilevel np_log group wsem (σ : store) m :
  σ !! wsem = Some m →
  let run := get_cytoscape_components annot onto_graph sort_values layout
               community_multilevel np_log group wsem σ in
  run.1 !! wsem = Some m
  ∧ (∀ r a, σ !! r = Some a → run.1 !! r = Some a)
  ∧ (is_Ok run.2 →
     ∃ r rows sub,
       σ !! r = None
       ∧ take_indices m (Group.ind <$> group) = Ok rows
       ∧ take_columns rows (Group.ind <$> group) = Ok sub
       ∧ run.1 !! r = Some (map (map threshold) sub)).
Proof.
  intros Hm run. split_and!.
  - by eapply get_cytoscape_components_frame.
  - by eapply get_cytoscape_components_frame.
  - intros [payload Hok]. unfold run in *. clear run.
    pose proof (similarity_graph_run group wsem σ m Hm) as Hrun.
    unfold get_cytoscape_components, mbind, M_bind, lift in *.
    destruct (take_indices m (Group.ind <$> group)) as [rows|e] eqn:Hrows;
      [|by rewrite Hrun in Hok].
    destruct Hrun as (r1 & Hr1 & Hrun).
    destruct (take_columns rows (Group.ind <$> group)) as [sub|e] eqn:Hsub;
      [|by rewrite Hrun in Hok].
    destruct Hrun as (r2 & Hr2 & Hne & Hrun). rewrite Hrun.
    exists r2, rows, sub. split_and!; [done..|].
    destruct (Weighted_Adjacency _); simpl; by rewrite lookup_insert_eq.
Qed.

Lemma transpose_unpack2_ok (coords : list (list Q)) :
  coords ≠ [] → Forall (λ p, length p = 2) coords →
  ∃ xs ys, transpose_unpack2 coords = Ok (xs, ys)
           ∧ length xs = length coords ∧ length ys = length coords.
Proof.
  intros Hne Hall. unfold transpose_unpack2.
  destruct coords as [|c coords]; [done|].
  assert (∃ ps, Forall2 (λ x y, point x = Some y) (c :: coords) ps)
    as (ps & Hps).
  { clear Hne. induction Hall as [|p l Hp Hl IH]; [by exists []|].
    destruct IH as (ps & Hps).
    destruct p as [|x [|y [|z p]]]; simplify_eq/=.
    exists ((x, y) :: ps). by constructor. }
  pose proof (Forall2_length _ _ _ Hps) as Hlen.
  apply mapM_Some in Hps. rewrite Hps.
  exists (ps.*1), (ps.*2). by rewrite !length_fmap.
Qed.

(** C6 (what the code does).  On an empty group the graph has no vertex,
    the layout has no point, and unpacking the transposed coordinates
    into [x] and [y] raises [ValueError]: no payload is produced. *)
Theorem empty_group_raises annot onto_graph sort_values layout
    community_multilevel np_log wsem (σ : store) m :
  σ !! wsem = Some m →
  (∀ g, length (layout g) = vcount g) →
  (get_cytoscape_components annot onto_graph sort_values layout
     community_multilevel np_log [] wsem σ).2 = Raise ValueError.
Proof.
  intros Hm Hlayout.
  destruct (similarity_graph_run [] wsem σ m Hm)
    as (r1 & _ & r2 & _ & _ & Hrun).
  unfold get_cytoscape_components, mbind, M_bind, lift. rewrite Hrun.
  simpl. unfold components_of_graph, coordinates.
  specialize (Hlayout {| vcount := 0; es := [] |}).
  destruct (layout _); [done|]. simpl in Hlayout. lia.
Qed.

Lemma empty_group_raises_witness :
  (get_cytoscape_components Fixture.annot3 Fixture.onto3
     Fixture.stable_sort_values Fixture.diagonal_layout
     Fixture.one_community Fixture.no_log [] 7 Fixture.store4).2
    = Raise ValueError.
Proof.
  apply (empty_group_raises _ _ _ _ _ _ 7 Fixture.store4 Fixture.sim4).
  - reflexivity.
  - intros g. unfold Fixture.diagonal_layout.
    by rewrite length_fmap, length_seq.
Defined.

Lemma wsem_sim_unchanged_witness :
  let run := get_cytoscape_components Fixture.annot3 Fixture.onto3
               Fixture.stable_sort_values Fixture.diagonal_layout
               Fixture.one_community Fixture.no_log Fixture.group3 7
               Fixture.store4 in
  run.1 !! 7 = Some Fixture.sim4
  ∧ (∀ r a, Fixture.store4 !! r = Some a → run.1 !! r = Some a)
  ∧ (is_Ok run.2 →
     ∃ r rows sub,
       Fixture.store4 !! r = None
       ∧ take_indices Fixture.sim4 (Group.ind <$> Fixture.group3) = Ok rows
       ∧ take_columns rows (Group.ind <$> Fixture.group3) = Ok sub
       ∧ run.1 !! r = Some (map (map threshold) sub)).
Proof.
  apply (wsem_sim_unchanged Fixture.annot3 Fixture.onto3
           Fixture.stable_sort_values Fixture.diagonal_layout
           Fixture.one_community Fixture.no_log Fixture.group3 7
           Fixture.store4 Fixture.sim4).
  reflexivity.
Defined.

(** ** Colours *)

Lemma elem_of_np_unique (l : list nat) k : k ∈ Numpy.unique l ↔ k ∈ l.
Proof.
  unfold Numpy.unique. rewrite list_elem_of_filter, elem_of_seq.
  split; [by intros [? _]|]. intros Hk. split; [done|].
  pose proof (max_list_elem_of_le k l Hk). lia.
Qed.

Lemma NoDup_np_unique (l : list nat) : NoDup (Numpy.unique l).
Proof. apply NoDup_filter, NoDup_seq. Qed.

Lemma length_palette_colors n : length (palette_colors n) = n `min` 48.
Proof.
  unfold palette_colors. case_decide.
  - rewrite length_take. change (length Dark24) with 24. lia.
  - rewrite length_app, length_take. change (length Dark24) with 24. lia.
Qed.

(** Up to forty-eight communities the palette is cycled: the community
    at position [j] of the sorted ids gets the colour [j mod 24]. *)
Lemma palette_colors_lookup n j :
  j < n → n ≤ 48 → palette_colors n !! j = Dark24 !! (j `mod` 24).
Proof.
  intros Hj Hn. unfold palette_colors. case_decide.
  - rewrite lookup_take_lt by done. by rewrite Nat.mod_small by lia.
  - destruct (decide (j < 24)) as [Hlt|Hge].
    + rewrite lookup_app_l by done. by rewrite Nat.mod_small by lia.
    + rewrite lookup_app_r by (change (length Dark24) with 24; lia).
      change (length Dark24) with 24. rewrite lookup_take_lt by lia.
      f_equal. rewrite (Nat.Div0.mod_eq j 24).
      assert (j / 24 = 1) as ->; [|lia].
      symmetry. apply Nat.div_unique with (j - 24); lia.
Qed.

Lemma dict_get_zip {V} (keys : list nat) (vals : list V) j k :
  NoDup keys → keys !! j = Some k →
  dict_get (zip keys vals) k
    = match vals !! j with Some v => Ok v | None => Raise KeyError end.
Proof.
  revert vals j. induction keys as [|k' keys IH]; intros vals j Hnd Hj; [done|].
  apply NoDup_cons in Hnd as [Hk' Hnd].
  destruct vals as [|v vals]; [by destruct j|]. simpl.
  destruct j as [|j]; simplify_eq/=; [by rewrite decide_True|].
  rewrite decide_False; [by apply IH|].
  intros ->. apply Hk'. by eapply list_elem_of_lookup_2.
Qed.

Lemma mapM_Raise {A B} (f : A → result B) (l : list A) e x :
  (∀ y e', f y = Raise e' → e' = e) →
  x ∈ l → f x = Raise e → mapM f l = Raise e.
Proof.
  intros Hall Hx Hfx. induction l as [|y l IH]; [by apply elem_of_nil in Hx|].
  change (mapM f (y :: l))
    with (f y ≫= λ b, mapM f l ≫= λ k, mret (b :: k)).
  destruct (f y) as [b|e'] eqn:Hy; [|by rewrite (Hall _ _ Hy)].
  apply elem_of_cons in Hx as [->|Hx]; [congruence|].
  by rewrite (IH Hx).
Qed.

Lemma dict_get_Raise {V} (d : list (nat * V)) k e :
  dict_get d k = Raise e → e = KeyError.
Proof.
  induction d as [|[k' v] d IH]; simpl; [by intros [= <-]|].
  case_decide; [done|apply IH].
Qed.

(** Above forty-eight communities the colour step fails, whatever the
    membership: the palette list stops at forty-eight entries. *)
Lemma node_colors_too_many (membership : list nat) :
  48 < length (Numpy.unique membership) →
  node_colors membership = Raise KeyError.
Proof.
  intros Hn.
  destruct (lookup_lt_is_Some_2 (Numpy.unique membership) 48) as [k Hk];
    [done|].
  unfold node_colors. eapply (mapM_Raise _ _ _ k).
  - intros y e'. apply dict_get_Raise.
  - eapply elem_of_np_unique, list_elem_of_lookup_2, Hk.
  - unfold color_map, set_list.
    rewrite (dict_get_zip _ _ 48 k (NoDup_np_unique _) Hk).
    rewrite lookup_ge_None_2; [done|]. rewrite length_palette_colors. lia.
Qed.

(** Up to forty-eight communities every community gets its colour. *)
Lemma color_map_cycles (membership : list nat) j k :
  length (Numpy.unique membership) ≤ 48 →
  Numpy.unique membership !! j = Some k →
  ∃ c, Dark24 !! (j `mod` 24) = Some c
       ∧ dict_get (color_map membership) k = Ok c.
Proof.
  intros Hn Hk. pose proof (lookup_lt_Some _ _ _ Hk) as Hj.
  unfold color_map, set_list.
  rewrite (dict_get_zip _ _ j k (NoDup_np_unique _) Hk).
  rewrite palette_colors_lookup by done.
  destruct (lookup_lt_is_Some_2 Dark24 (j `mod` 24)) as [c Hc].
  { change (length Dark24) with 24. apply Nat.mod_upper_bound. lia. }
  exists c. by rewrite Hc.
Qed.

(** The colour step alone on forty-nine communities: the palette list
    has forty-eight entries, the last community has no colour. *)
Lemma node_colors_49 : node_colors (seq 0 49) = Raise KeyError.
Proof. by vm_compute. Qed.

Lemma components_of_graph_colors_raise annot onto_graph sort_values layout
    community_multilevel np_log group graph xs ys es community e :
  coordinates layout (length group) graph = Ok (xs, ys) →
  edge_list group graph = Ok es →
  set_column (length group) (community_multilevel graph) = Ok community →
  node_colors community = Raise e →
  components_of_graph annot onto_graph sort_values layout
    community_multilevel np_log group graph = Raise e.
Proof.
  intros Hxy Hes Hcomm Hcol. unfold components_of_graph.
  rewrite Hxy. cbn [mbind result_bind]. rewrite Hes. cbn [mbind result_bind].
  rewrite Hcomm. cbn [mbind result_bind]. by rewrite Hcol.
Qed.

(** C7 (what the code does).  With forty-nine communities, here
    forty-nine terms each alone in its community, the colour list has
    forty-eight entries, [color_map] misses the last community and the
    request raises [KeyError]. *)
Theorem forty_nine_communities_raise annot onto_graph sort_values layout
    community_multilevel np_log wsem (σ : store) :
  σ !! wsem = Some Fixture.sim49 →
  (∀ g, length (layout g) = vcount g
        ∧ Forall (λ p, length p = 2) (layout g)) →
  community_multilevel {| vcount := 49; es := [] |} = seq 0 49 →
  (get_cytoscape_components annot onto_graph sort_values layout
     community_multilevel np_log Fixture.group49 wsem σ).2 = Raise KeyError.
Proof.
  intros Hm Hlayout Hcomm.
  pose proof (similarity_graph_run Fixture.group49 wsem σ _ Hm) as Hrun.
  replace (take_indices Fixture.sim49 (Group.ind <$> Fixture.group49))
    with (Ok Fixture.sim49) in Hrun by (by vm_compute).
  destruct Hrun as (r1 & _ & Hrun).
  replace (take_columns Fixture.sim49 (Group.ind <$> Fixture.group49))
    with (Ok Fixture.sim49) in Hrun by (by vm_compute).
  destruct Hrun as (r2 & _ & _ & Hrun).
  replace (Weighted_Adjacency (map (map threshold) Fixture.sim49))
    with (Ok {| vcount := 49; es := [] |}) in Hrun by (by vm_compute).
  unfold get_cytoscape_components, mbind, M_bind, lift. rewrite Hrun.
  cbn [snd]. 
  destruct (Hlayout {| vcount := 49; es := [] |}) as [Hlen Hdim].
  destruct (transpose_unpack2_ok (layout {| vcount := 49; es := [] |}))
    as (xs & ys & Hun & Hxs & Hys); [|done|].
  { intros Heq. by rewrite Heq in Hlen. }
  simpl in Hlen. rewrite Hlen in Hxs, Hys.
  eapply components_of_graph_colors_raise with (xs := xs) (ys := ys).
  - unfold coordinates. rewrite Hun. cbn [mbind result_bind].
    unfold set_column.
    replace (length Fixture.group49) with 49 by (by vm_compute).
    rewrite Hxs, Hys. by rewrite !decide_True by done.
  - reflexivity.
  - rewrite Hcomm. unfold set_column. by rewrite decide_True by done.
  - apply node_colors_49.
Qed.

Lemma forty_nine_communities_raise_witness :
  (get_cytoscape_components Fixture.annot3 Fixture.onto3
     Fixture.stable_sort_values Fixture.diagonal_layout
     Fixture.singletons Fixture.no_log Fixture.group49 7 Fixture.store49).2
    = Raise KeyError.
Proof.
  apply (forty_nine_communities_raise _ _ _ _ _ _ 7 Fixture.store49).
  - reflexivity.
  - intros g. unfold Fixture.diagonal_layout. split.
    + by rewrite length_fmap, length_seq.
    + apply Forall_fmap, Forall_forall. by intros.
  - reflexivity.
Defined.

End GraphFacts.

(** ** Sorting, representatives and labels *)

Module LabelFacts.
Import Ontology Numpy Igraph Pandas.

Lemma lex_lt_irrefl k : lex_lt k k = false.
Proof.
  induction k as [|x k IH]; [done|]. simpl.
  rewrite IH, andb_false_r, orb_false_r. apply Z.ltb_irrefl.
Qed.

Lemma lex_lt_asym k1 k2 : lex_lt k1 k2 = true → lex_lt k2 k1 = false.
Proof.
  revert k2. induction k1 as [|x k1 IH]; intros [|y k2]; simpl; try done.
  rewrite orb_true_iff, andb_true_iff, Z.ltb_lt, Z.eqb_eq.
  intros [Hlt|[-> Hlex]].
  - apply orb_false_iff. split; [apply Z.ltb_ge; lia|].
    apply andb_false_iff. left. apply Z.eqb_neq. lia.
  - rewrite Z.ltb_irrefl, Z.eqb_refl. simpl. by apply IH.
Qed.

Lemma lex_lt_cotrans k1 k2 k3 :
  lex_lt k1 k3 = true → lex_lt k1 k2 = true ∨ lex_lt k2 k3 = true.
Proof.
  revert k2 k3.
  induction k1 as [|x k1 IH]; intros [|y k2] [|z k3]; simpl; try by auto.
  rewrite !orb_true_iff, !andb_true_iff, !Z.ltb_lt, !Z.eqb_eq.
  intros [Hlt|[-> Hlex]].
  - destruct (decide (x < y)%Z); [by left; left|right; left; lia].
  - destruct (Z.lt_trichotomy z y) as [?|[->|?]];
      [by left; left| |by right; left].
    destruct (IH k2 k3 Hlex); [left|right]; by right.
Qed.

Lemma lex_lt_single (x y : Z) : lex_lt [x] [y] = false ↔ (y ≤ x)%Z.
Proof.
  simpl. rewrite andb_false_r, orb_false_r. apply Z.ltb_ge.
Qed.

Lemma lex_lt_pair (d g d' g' : Z) :
  lex_lt [d; g] [d'; g'] = false ↔ (d' < d ∨ d' = d ∧ g' ≤ g)%Z.
Proof.
  simpl. rewrite andb_false_r, orb_false_r.
  rewrite orb_false_iff, andb_false_iff, !Z.ltb_ge, Z.eqb_neq. lia.
Qed.

(** The reference sort meets both contracts. *)
Lemma insert_row_Permutation {A} (by_ : A → list Z) x l :
  Fixture.insert_row by_ x l ≡ₚ x :: l.
Proof.
  induction l as [|y l IH]; simpl; [done|].
  destruct (lex_lt _ _); [|done]. by rewrite IH, Permutation_swap.
Qed.

Lemma insert_row_sorted {A} (by_ : A → list Z) x l :
  StronglySorted (λ a b, lex_lt (by_ a) (by_ b) = false) l →
  StronglySorted (λ a b, lex_lt (by_ a) (by_ b) = false)
    (Fixture.insert_row by_ x l).
Proof.
  induction 1 as [|y l Hl IH Hy]; simpl; [by repeat constructor|].
  destruct (lex_lt (by_ x) (by_ y)) eqn:Hxy.
  - constructor; [done|].
    rewrite (insert_row_Permutation by_ x l). constructor; [|done].
    by apply lex_lt_asym.
  - constructor; [by constructor|]. constructor; [done|].
    eapply Forall_impl; [exact Hy|]. intros z Hyz. simpl in *.
    apply not_true_iff_false. intros Hxz.
    destruct (lex_lt_cotrans _ (by_ y) _ Hxz); congruence.
Qed.

Lemma insert_row_filter {A} (by_ : A → list Z) x l k :
  filter (λ a, by_ a = k) (Fixture.insert_row by_ x l)
    = filter (λ a, by_ a = k) (x :: l).
Proof.
  induction l as [|y l IH]; simpl; [done|].
  destruct (lex_lt (by_ x) (by_ y)) eqn:Hxy; [|done].
  rewrite !filter_cons in *. rewrite IH.
  destruct (decide (by_ y = k)) as [<-|]; [|done].
  destruct (decide (by_ x = by_ y)) as [Heq|]; [|done].
  by rewrite Heq, lex_lt_irrefl in Hxy.
Qed.

Lemma stable_sort_values_descending : sorts_descending Fixture.stable_sort_values.
Proof.
  intros A by_ l. unfold Fixture.stable_sort_values. split.
  - induction l as [|x l IH]; simpl; [done|].
    by rewrite insert_row_Permutation, IH.
  - induction l as [|x l IH]; simpl; [constructor|].
    by apply insert_row_sorted.
Qed.

Lemma stable_sort_values_ties : keeps_ties_in_order Fixture.stable_sort_values.
Proof.
  intros A by_ l k. unfold Fixture.stable_sort_values.
  induction l as [|x l IH]; simpl; [done|].
  rewrite insert_row_filter, !filter_cons. by rewrite IH.
Qed.




(** The first row after sorting is a row of largest key. *)
Lemma iloc0_sort_values sort_values {A} (by_ : A → list Z) (l : list A) :
  sorts_descending sort_values →
  l ≠ [] →
  ∃ r, iloc0 (sort_values A by_ l) = Ok r ∧ r ∈ l
       ∧ ∀ r', r' ∈ l → lex_lt (by_ r) (by_ r') = false.
Proof.
  intros Hsort Hne. destruct (Hsort A by_ l) as [Hperm Hsorted].
  destruct (sort_values A by_ l) as [|r rest] eqn:Hs.
  { by apply Permutation_nil_l in Hperm. }
  exists r. split_and!; [done|rewrite <-Hperm; by left|].
  intros r' Hr'. rewrite <-Hperm in Hr'.
  apply elem_of_cons in Hr' as [->|Hr']; [apply lex_lt_irrefl|].
  apply StronglySorted_inv in Hsorted as [_ Hall].
  by eapply (proj1 (Forall_forall _ _) Hall).
Qed.

Lemma iloc0_Ok_inv {A} (l : list A) r : iloc0 l = Ok r → head l = Some r.
Proof. unfold iloc0, index. by destruct l as [|x l]; intros [= <-]. Qed.

(** With ties kept in order it is the first such row. *)
Lemma iloc0_sort_values_first sort_values {A} (by_ : A → list Z) (l : list A) r :
  keeps_ties_in_order sort_values →
  iloc0 (sort_values A by_ l) = Ok r →
  head (filter (λ a, by_ a = by_ r) l) = Some r.
Proof.
  intros Hties Hr. rewrite <-(Hties A by_ l (by_ r)).
  apply iloc0_Ok_inv, head_Some in Hr as [rest ->].
  by rewrite filter_cons_True.
Qed.

Lemma head_filter_first {A} (P : A → Prop) `{∀ x, Decision (P x)}
    (l : list A) r :
  head (filter P l) = Some r →
  ∃ i, l !! i = Some r ∧ P r ∧ ∀ i' r', l !! i' = Some r' → P r' → i ≤ i'.
Proof.
  induction l as [|x l IH]; [done|]. rewrite filter_cons.
  destruct (decide (P x)) as [Hx|Hx].
  - intros [= <-]. exists 0. split_and!; [done..|]. intros; lia.
  - intros (i & Hi & Hr & Hmin)%IH. exists (S i). split_and!; [done..|].
    intros [|i'] r' Hi' Hr'; simplify_eq/=; [done|].
    apply le_n_S. by eapply Hmin.
Qed.

(** *** Communities and their members *)

Lemma elem_of_zip_lookup {A B} (l : list A) (k : list B) x y :
  (x, y) ∈ zip l k ↔ ∃ j, l !! j = Some x ∧ k !! j = Some y.
Proof.
  rewrite list_elem_of_lookup. by setoid_rewrite lookup_zip_Some.
Qed.

Lemma elem_of_ids_of group community k x :
  x ∈ ids_of group community k ↔
    ∃ j r, group !! j = Some r ∧ community !! j = Some k ∧ Group.id r = x.
Proof.
  unfold ids_of. rewrite list_elem_of_fmap. split.
  - intros ([r c] & -> & Hin). apply list_elem_of_filter in Hin as [Hc Hin].
    simpl in Hc. subst c. apply elem_of_zip_lookup in Hin as (j & ? & ?).
    by exists j, r.
  - intros (j & r & Hr & Hk & <-). exists (r, k). split; [done|].
    apply list_elem_of_filter. split; [done|].
    apply elem_of_zip_lookup. by exists j.
Qed.

Lemma elem_of_pd_unique (l : list nat) k : k ∈ Pandas.unique l ↔ k ∈ l.
Proof.
  unfold Pandas.unique.
  by rewrite elem_of_reverse, elem_of_remove_dups, elem_of_reverse.
Qed.

Lemma NoDup_pd_unique (l : list nat) : NoDup (Pandas.unique l).
Proof.
  unfold Pandas.unique. rewrite reverse_Permutation. apply NoDup_remove_dups.
Qed.

Lemma elem_of_comm_members group community k members :
  (k, members) ∈ comm_members group community ↔
    k ∈ community ∧ members = ids_of group community k ∧ 1 < length members.
Proof.
  unfold comm_members. rewrite list_elem_of_filter, list_elem_of_fmap. simpl.
  fold (ids_of group community). split.
  - intros (Hlen & k' & [= -> ->] & Hk).
    by apply (proj1 (elem_of_pd_unique _ _)) in Hk.
  - intros (Hk & -> & Hlen). split; [done|]. exists k.
    by rewrite elem_of_pd_unique.
Qed.

Lemma NoDup_comm_members_keys group community :
  NoDup (comm_members group community).*1.
Proof.
  unfold comm_members.
  assert (∀ l : list nat, NoDup l →
            NoDup (filter (λ kv : nat * list string, 1 < length kv.2)
                     ((λ i, (i, ids_of group community i)) <$> l)).*1) as Hgen.
  { induction 1 as [|x l Hx Hl IH]; [constructor|].
    rewrite fmap_cons, filter_cons. case_decide; [|done].
    rewrite fmap_cons. constructor; [|done]. simpl.
    intros Hin. apply list_elem_of_fmap in Hin as ([k m] & -> & Hin).
    apply list_elem_of_filter in Hin as [_ Hin].
    apply list_elem_of_fmap in Hin as (y & [= -> ->] & Hy). done. }
  apply Hgen, NoDup_pd_unique.
Qed.

(** With distinct ids, a row has its id among the members of community
    [k] exactly when it belongs to community [k]. *)
Lemma member_id_iff group community k j r :
  NoDup (Group.id <$> group) →
  group !! j = Some r →
  Group.id r ∈ ids_of group community k ↔ community !! j = Some k.
Proof.
  intros Hnd Hr. rewrite elem_of_ids_of. split.
  - intros (j' & r' & Hr' & Hk & Hid).
    assert (j' = j) as ->; [|done].
    eapply NoDup_lookup; [exact Hnd| |].
    + by rewrite list_lookup_fmap, Hr'.
    + by rewrite list_lookup_fmap, Hr, Hid.
  - intros Hk. by exists j, r.
Qed.

(** With a sort that keeps rows of equal key in order, the
    representative is moreover the first row of highest count in group
    order. *)
Lemma representative_first_if_stable sort_values group community k members :
  sorts_descending sort_values →
  keeps_ties_in_order sort_values →
  NoDup (Group.id <$> group) →
  (k, members) ∈ comm_members group community →
  ∃ i r,
    group !! i = Some r ∧ community !! i = Some k
    ∧ representative_of sort_values group members = Ok (Group.id r)
    ∧ ∀ i' r', group !! i' = Some r' → community !! i' = Some k →
        (Group.genes r' ≤ Group.genes r)%Z
        ∧ (Group.genes r' = Group.genes r → i ≤ i').
Proof.
  intros Hsort Hties Hnd (Hk & -> & Hlen)%elem_of_comm_members.
  assert (∃ x, x ∈ ids_of group community k) as [x Hx].
  { destruct (ids_of group community k) as [|x ms]; [simpl in Hlen; lia|].
    exists x. by left. }
  set (members := ids_of group community k) in *.
  set (l := filter (λ r, Group.id r ∈ members) group).
  assert (l ≠ []) as Hne.
  { pose proof Hx as Hx'.
    apply elem_of_ids_of in Hx' as (j & r & Hr & _ & Hid).
    intros Hnil. assert (r ∈ l) as Hin; [|by rewrite Hnil in Hin;
      apply elem_of_nil in Hin].
    apply list_elem_of_filter. split; [by rewrite Hid|].
    by eapply list_elem_of_lookup_2. }
  destruct (iloc0_sort_values sort_values (λ r, [Group.genes r]) l Hsort Hne)
    as (r & Hr & Hin & Hmax).
  pose proof (iloc0_sort_values_first sort_values _ l r Hties Hr) as Hfirst.
  unfold l in Hfirst. rewrite list_filter_filter in Hfirst.
  apply head_filter_first in Hfirst as (i & Hi & _ & Hmin).
  apply list_elem_of_filter in Hin as [Hmem _].
  exists i, r. split_and!; [done| |by unfold representative_of; fold l;
    rewrite Hr|].
  { by apply (member_id_iff group community k i r Hnd Hi). }
  intros i' r' Hi' Hk'.
  assert (Group.id r' ∈ members) as Hmem'.
  { by apply (member_id_iff group community k i' r' Hnd Hi'). }
  split.
  - apply lex_lt_single, Hmax. apply list_elem_of_filter. split; [done|].
    by eapply list_elem_of_lookup_2.
  - intros Heq. eapply Hmin; [exact Hi'|]. split; [by rewrite Heq|done].
Qed.




(** *** Labels *)

Lemma mapM_Ok {A B} (f : A → result B) (l : list A) (k : list B) :
  mapM f l = Ok k ↔ Forall2 (λ x y, f x = Ok y) l k.
Proof.
  revert k. induction l as [|x l IH]; intros k; simpl.
  - split; [intros [= <-]; constructor|by inversion 1].
  - unfold mbind, result_bind, mret, result_ret in *. split.
    + destruct (f x) as [y|] eqn:Hy; [|done].
      destruct (mapM f l) as [ys|] eqn:Hys; [|done].
      intros [= <-]. constructor; [done|]. by apply IH.
    + inversion 1 as [|x' y l' ys Hy Hys]; subst. rewrite Hy.
      apply IH in Hys. by rewrite Hys.
Qed.

Lemma fmap_Ok {A B} (f : A → B) (r : result A) y :
  f <$> r = Ok y ↔ ∃ x, r = Ok x ∧ y = f x.
Proof.
  unfold fmap, result_fmap. destruct r as [x|e].
  - split; [intros [= <-]; eauto|by intros (? & [= <-] & ->)].
  - split; [done|by intros (? & ? & _)].
Qed.

Lemma dict_get_lookup {V} (d : list (nat * V)) i k v :
  NoDup d.*1 → d !! i = Some (k, v) → dict_get d k = Ok v.
Proof.
  revert i. induction d as [|[k' v'] d IH]; intros i Hnd Hi; [done|].
  simpl. apply NoDup_cons in Hnd as [Hk' Hnd]. destruct i as [|i].
  - simplify_eq/=. by rewrite decide_True.
  - simpl in Hi. rewrite decide_False; [by eapply IH|].
    intros ->. apply Hk'. apply list_elem_of_fmap. exists (k, v).
    split; [done|]. by eapply list_elem_of_lookup_2.
Qed.

(** The first row of a sorted selection, when there is one. *)
Lemma iloc0_sort_values_inv sort_values {A} (by_ : A → list Z) (l : list A) r :
  sorts_descending sort_values →
  iloc0 (sort_values A by_ l) = Ok r →
  r ∈ l ∧ ∀ r', r' ∈ l → lex_lt (by_ r) (by_ r') = false.
Proof.
  intros Hsort Hr.
  assert (l ≠ []) as Hne.
  { intros ->. destruct (Hsort A by_ []) as [Hperm _].
    apply Permutation_nil_r in Hperm. by rewrite Hperm in Hr. }
  destruct (iloc0_sort_values sort_values by_ l Hsort Hne)
    as (r' & Hr' & Hin & Hmax).
  rewrite Hr in Hr'. by injection Hr' as <-.
Qed.

(** C3. The label of every community with more than one member follows
    the common ancestors [v] of its members: a single ancestor gives its
    display name; none gives the display name of a member with the highest
    gene count; several give the display name of an ancestor of greatest
    depth and, among those, of highest gene count. *)
Theorem rep_labels_three_cases annot onto_graph sort_values group community
    ca labels :
  sorts_descending sort_values →
  comm_ancestors annot onto_graph (comm_members group community) = Ok ca →
  rep_labels annot sort_values (comm_members group community) ca = Ok labels →
  ∀ i k members,
    comm_members group community !! i = Some (k, members) →
    ∃ v label,
      get_comm_ancestors members (roots annot) onto_graph = Ok v
      ∧ labels !! i = Some label
      ∧ (size v = 1 →
           ∃ r, r ∈ annot ∧ Annot.GO_ID r ∈ v ∧ label = Annot.GO_term r)
      ∧ (size v = 0 →
           ∃ r, r ∈ annot ∧ Annot.GO_ID r ∈ members
                ∧ label = Annot.GO_term r
                ∧ ∀ r', r' ∈ annot → Annot.GO_ID r' ∈ members →
                    (Annot.genes r' ≤ Annot.genes r)%Z)
      ∧ (1 < size v →
           ∃ r, r ∈ annot ∧ Annot.GO_ID r ∈ v
                ∧ label = Annot.GO_term r
                ∧ ∀ r', r' ∈ annot → Annot.GO_ID r' ∈ v →
                    (Annot.depth r' < Annot.depth r
                     ∨ Annot.depth r' = Annot.depth r
                       ∧ Annot.genes r' ≤ Annot.genes r)%Z).
Proof.
  intros Hsort Hca Hlabels i k members Hi.
  apply mapM_Ok in Hca. apply mapM_Ok in Hlabels.
  destruct (Forall2_lookup_l _ _ _ _ _ Hca Hi) as ([k' v] & Hcai & Hv).
  simpl in Hv. unfold mbind, result_bind, mret, result_ret in Hv.
  destruct (get_comm_ancestors members (roots annot) onto_graph)
    as [v'|] eqn:Hanc; [|done].
  simplify_eq.
  destruct (Forall2_lookup_l _ _ _ _ _ Hlabels Hcai) as (label & Hli & Hlab).
  simpl in Hlab. exists v, label. split_and!; [done..| | |].
  - intros Hsz. unfold rep_label in Hlab. rewrite decide_True in Hlab by done.
    apply fmap_Ok in Hlab as (r & Hr & ->).
    apply iloc0_Ok_inv, head_Some_elem_of, list_elem_of_filter in Hr as [? ?].
    by exists r.
  - intros Hsz. unfold rep_label in Hlab.
    rewrite decide_False, decide_True in Hlab by lia.
    rewrite (dict_get_lookup _ i _ members) in Hlab;
      [|apply NoDup_comm_members_keys|done].
    simpl in Hlab. apply fmap_Ok in Hlab as (r & Hr & ->).
    apply iloc0_sort_values_inv in Hr as [Hin Hmax]; [|done].
    apply list_elem_of_filter in Hin as [? ?].
    exists r. split_and!; [done..|]. intros r' Hr' Hmem.
    apply lex_lt_single, Hmax, list_elem_of_filter. by split.
  - intros Hsz. unfold rep_label in Hlab.
    rewrite !decide_False in Hlab by lia.
    apply fmap_Ok in Hlab as (r & Hr & ->).
    apply iloc0_sort_values_inv in Hr as [Hin Hmax]; [|done].
    apply list_elem_of_filter in Hin as [? ?].
    exists r. split_and!; [done..|]. intros r' Hr' Hmem.
    apply lex_lt_pair, Hmax, list_elem_of_filter. by split.
Qed.

Lemma rep_labels_three_cases_witness :
  ∃ v label,
    get_comm_ancestors ["A"; "B"; "C"] (roots Fixture.annot3) Fixture.onto3
      = Ok v
    ∧ ["a"] !! 0 = Some label
    ∧ (size v = 1 →
         ∃ r, r ∈ Fixture.annot3 ∧ Annot.GO_ID r ∈ v
              ∧ label = Annot.GO_term r)
    ∧ (size v = 0 →
         ∃ r, r ∈ Fixture.annot3 ∧ Annot.GO_ID r ∈ ["A"; "B"; "C"]
              ∧ label = Annot.GO_term r
              ∧ ∀ r', r' ∈ Fixture.annot3 →
                  Annot.GO_ID r' ∈ ["A"; "B"; "C"] →
                  (Annot.genes r' ≤ Annot.genes r)%Z)
    ∧ (1 < size v →
         ∃ r, r ∈ Fixture.annot3 ∧ Annot.GO_ID r ∈ v
              ∧ label = Annot.GO_term r
              ∧ ∀ r', r' ∈ Fixture.annot3 → Annot.GO_ID r' ∈ v →
                  (Annot.depth r' < Annot.depth r
                   ∨ Annot.depth r' = Annot.depth r
                     ∧ Annot.genes r' ≤ Annot.genes r)%Z).
Proof.
  apply (rep_labels_three_cases Fixture.annot3 Fixture.onto3
           Fixture.stable_sort_values Fixture.group3 [0; 0; 0]
           [(0, {[ "A"; "R" ]})] ["a"] stable_sort_values_descending
           ltac:(by vm_compute) ltac:(by vm_compute)
           0 0 ["A"; "B"; "C"] ltac:(by vm_compute)).
Defined.

(** *** The node fields of the payload *)

Lemma set_column_Ok {A} n (values l : list A) :
  set_column n values = Ok l → l = values ∧ length values = n.
Proof. unfold set_column. case_decide; [by intros [= <-]|done]. Qed.

Lemma coordinates_Ok layout n graph xs ys :
  coordinates layout n graph = Ok (xs, ys) → length xs = n ∧ length ys = n.
Proof.
  unfold coordinates. destruct (transpose_unpack2 _) as [[xs' ys']|]; [|done].
  cbn [mbind result_bind].
  destruct (set_column n xs') as [xs''|] eqn:Hx; [|done].
  cbn [mbind result_bind].
  destruct (set_column n ys') as [ys''|] eqn:Hy; [|done].
  cbn [mbind result_bind mret result_ret]. intros [= <- <-].
  apply set_column_Ok in Hx as [-> Hx], Hy as [-> Hy]. done.
Qed.

(** A successful run went through every step. *)
Lemma components_of_graph_Ok annot onto_graph sort_values layout
    community_multilevel np_log group graph elements ss :
  components_of_graph annot onto_graph sort_values layout
    community_multilevel np_log group graph = Ok (elements, ss) →
  let community := community_multilevel graph in
  let cm := comm_members group community in
  ∃ xs ys reps ca labels edges,
    length xs = length group ∧ length ys = length group
    ∧ length community = length group
    ∧ representatives sort_values group cm = Ok reps
    ∧ comm_ancestors annot onto_graph cm = Ok ca
    ∧ rep_labels annot sort_values cm ca = Ok labels
    ∧ Forall (λ e, is_node e = false) edges
    ∧ elements
        = node_list np_log group xs ys community reps labels ca ++ edges.
Proof.
  unfold components_of_graph. intros H.
  destruct (coordinates layout (length group) graph) as [[xs ys]|] eqn:Hxy;
    [|done].
  cbn [mbind result_bind] in H.
  destruct (edge_list group graph) as [es|]; [|done].
  cbn [mbind result_bind] in H.
  destruct (set_column (length group) (community_multilevel graph))
    as [community|] eqn:Hcomm; [|done].
  cbn [mbind result_bind] in H.
  apply set_column_Ok in Hcomm as [-> Hcomm].
  destruct (node_colors _) as [color|]; [|done].
  cbn [mbind result_bind] in H.
  destruct (representatives sort_values group _) as [reps|] eqn:Hreps; [|done].
  cbn [mbind result_bind] in H.
  destruct (comm_ancestors annot onto_graph _) as [ca|] eqn:Hca; [|done].
  cbn [mbind result_bind] in H.
  destruct (rep_labels annot sort_values _ ca) as [labels|] eqn:Hlabels; [|done].
  cbn [mbind result_bind] in H.
  destruct (mapM _ es) as [edges|] eqn:Hedges; [|done].
  cbn [mbind result_bind mret result_ret] in H.
  injection H as <- <-.
  apply coordinates_Ok in Hxy as [Hxs Hys].
  simpl. exists xs, ys, reps, ca, labels, edges. split_and!; try done.
  apply mapM_Ok in Hedges. apply Forall_forall. intros e He.
  apply list_elem_of_lookup in He as [j Hj].
  destruct (Forall2_lookup_r _ _ _ _ _ Hedges Hj) as ([[s t] w] & _ & He).
  unfold make_edge in He. destruct (iloc0 _); [|done].
  by injection He as <-.
Qed.

Lemma node_list_lookup np_log group xs ys community reps labels ca i r :
  length xs = length group → length ys = length group →
  length community = length group →
  group !! i = Some r →
  ∃ x y c,
    community !! i = Some c
    ∧ node_list np_log group xs ys community reps labels ca !! i
      = Some (make_node np_log r x y c
                (bool_decide (Group.id r ∈ reps))
                ((dict_of (zip reps labels) : gmap string string)
                   !! Group.id r)
                (default "None"%string
                   ((dict_of (zip ca.*1 labels) : gmap nat string) !! c))).
Proof.
  intros Hxs Hys Hc Hr. pose proof (lookup_lt_Some _ _ _ Hr) as Hi.
  destruct (lookup_lt_is_Some_2 xs i) as [x Hx]; [lia|].
  destruct (lookup_lt_is_Some_2 ys i) as [y Hy]; [lia|].
  destruct (lookup_lt_is_Some_2 community i) as [c Hci]; [lia|].
  exists x, y, c. split; [done|]. unfold node_list.
  rewrite lookup_zip_with, Hr. simpl.
  set (rest := zip xs _).
  assert (rest !! i
          = Some (x, (y, (c, (bool_decide (Group.id r ∈ reps),
              ((dict_of (zip reps labels) : gmap string string) !! Group.id r,
               default "None"%string
                 ((dict_of (zip ca.*1 labels) : gmap nat string) !! c)))))))
    as ->; [|done].
  unfold rest.
  apply lookup_zip_Some. split; [done|].
  apply lookup_zip_Some. split; [done|].
  apply lookup_zip_Some. split; [done|].
  apply lookup_zip_Some. split; [by rewrite list_lookup_fmap, Hr|].
  apply lookup_zip_Some. split; [by rewrite list_lookup_fmap, Hr|].
  by rewrite list_lookup_fmap, Hci.
Qed.

Lemma dict_of_is_Some `{Countable K} {V} (keys : list K) (vals : list V) k :
  length keys ≤ length vals →
  is_Some ((dict_of (zip keys vals) : gmap K V) !! k) ↔ k ∈ keys.
Proof.
  intros Hlen. unfold dict_of.
  rewrite <-not_eq_None_Some, <-not_elem_of_list_to_map.
  rewrite fmap_reverse, elem_of_reverse, fst_zip by done.
  split; [apply dec_stable|auto].
Qed.

Lemma NoDup_ids_of group community k :
  NoDup (Group.id <$> group) → NoDup (ids_of group community k).
Proof.
  revert community. induction group as [|r group IH]; intros community Hnd.
  { constructor. }
  destruct community as [|c community]; [constructor|].
  apply NoDup_cons in Hnd as [Hr Hnd].
  unfold ids_of. simpl. rewrite filter_cons. simpl.
  fold (ids_of group community k).
  case_decide; [|by apply IH]. rewrite fmap_cons.
  fold (ids_of group community k). constructor; [|by apply IH].
  intros Hin. apply elem_of_ids_of in Hin as (j & r' & Hr' & _ & Hid).
  apply Hr. apply list_elem_of_fmap. exists r'. split; [done|].
  by eapply list_elem_of_lookup_2.
Qed.

(** A community whose only row is [i] has no entry in [comm_members]. *)
Lemma singleton_not_comm_member group community k members i :
  NoDup (Group.id <$> group) →
  (k, members) ∈ comm_members group community →
  community !! i = Some k →
  ∃ j, j ≠ i ∧ community !! j = Some k.
Proof.
  intros Hnd (Hk & -> & Hlen)%elem_of_comm_members Hi.
  pose proof (NoDup_ids_of group community k Hnd) as Hnd'.
  destruct (ids_of group community k) as [|a [|b l]] eqn:Hids;
    simpl in Hlen; [lia..|].
  assert (a ∈ ids_of group community k) as Ha by (rewrite Hids; set_solver).
  assert (b ∈ ids_of group community k) as Hb by (rewrite Hids; set_solver).
  apply elem_of_ids_of in Ha as (ja & ra & Hra & Hka & Hida).
  apply elem_of_ids_of in Hb as (jb & rb & Hrb & Hkb & Hidb).
  assert (a ≠ b) as Hab.
  { apply NoDup_cons in Hnd' as [Hnot _]. intros ->. apply Hnot. by left. }
  destruct (decide (ja = i)) as [->|]; [|by exists ja].
  exists jb. split; [|done]. intros ->. congruence.
Qed.

Lemma length_node_list np_log group xs ys community reps labels ca :
  length xs = length group → length ys = length group →
  length community = length group →
  length (node_list np_log group xs ys community reps labels ca)
    = length group.
Proof.
  intros Hxs Hys Hc. unfold node_list.
  rewrite length_zip_with, !length_zip, !length_fmap. lia.
Qed.

(** The representative of a community is one of its rows. *)
Lemma representative_of_member sort_values group community k members i r :
  sorts_descending sort_values →
  NoDup (Group.id <$> group) →
  (k, members) ∈ comm_members group community →
  representative_of sort_values group members = Ok (Group.id r) →
  group !! i = Some r →
  community !! i = Some k.
Proof.
  intros Hsort Hnd Hkm Hrep Hi.
  apply elem_of_comm_members in Hkm as (_ & -> & _).
  unfold representative_of in Hrep.
  apply fmap_Ok in Hrep as (r0 & Hr0 & Hid).
  apply iloc0_sort_values_inv in Hr0 as [Hin _]; [|done].
  apply list_elem_of_filter in Hin as [Hmem _]. rewrite <-Hid in Hmem.
  by apply (member_id_iff group community k i r Hnd Hi).
Qed.

(** C5. In the payload of a successful request, the node of a row has
    the representative flag, and has a representative label, exactly when
    the row is the representative chosen for its community and that
    community has more than one member (it is listed in [comm_members]);
    the only row of a community has neither.  The nodes are the first
    elements of the payload, one per row. *)
Theorem representative_fields_iff_chosen annot onto_graph sort_values layout
    community_multilevel np_log group wsem (σ : store) elements ss :
  sorts_descending sort_values →
  NoDup (Group.id <$> group) →
  (get_cytoscape_components annot onto_graph sort_values layout
     community_multilevel np_log group wsem σ).2 = Ok (elements, ss) →
  ∃ graph,
    (similarity_graph group wsem σ).2 = Ok graph
    ∧ (∀ i e, elements !! i = Some e → is_node e = true → i < length group)
    ∧ ∀ i r, group !! i = Some r →
        let community := community_multilevel graph in
        let chosen :=
          ∃ k members,
            (k, members) ∈ comm_members group community
            ∧ community !! i = Some k
            ∧ representative_of sort_values group members = Ok (Group.id r) in
        ∃ nd pos cls,
          elements !! i = Some (Node nd pos cls)
          ∧ node_id nd = Group.id r
          ∧ (node_representative nd = true ↔ chosen)
          ∧ (is_Some (node_rep_label nd) ↔ chosen)
          ∧ ((∀ j, community !! j = community !! i → j = i) →
             node_representative nd = false ∧ node_rep_label nd = None).
Proof.
  intros Hsort Hnd Hrun.
  unfold get_cytoscape_components, mbind, M_bind, lift in Hrun.
  destruct (similarity_graph group wsem σ) as [σ' [graph|e]] eqn:Hsg;
    [|done].
  simpl in Hrun. exists graph. split; [done|].
  apply components_of_graph_Ok in Hrun
    as (xs & ys & reps & ca & labels & edges & Hxs & Hys & Hc & Hreps & Hca
        & Hlabels & Hedges & ->).
  set (community := community_multilevel graph) in *.
  set (cm := comm_members group community) in *.
  pose proof (length_node_list np_log group xs ys community reps labels ca
                Hxs Hys Hc) as Hnlen.
  apply mapM_Ok in Hreps. apply mapM_Ok in Hca. apply mapM_Ok in Hlabels.
  pose proof (Forall2_length _ _ _ Hreps) as Hl1.
  pose proof (Forall2_length _ _ _ Hca) as Hl2.
  pose proof (Forall2_length _ _ _ Hlabels) as Hl3.
  split.
  { intros i e Hi He. destruct (decide (i < length group)); [done|].
    rewrite lookup_app_r in Hi by lia.
    apply list_elem_of_lookup_2 in Hi.
    rewrite (proj1 (Forall_forall _ _) Hedges e Hi) in He. done. }
  intros i r Hi. simpl.
  destruct (node_list_lookup np_log group xs ys community reps labels ca i r
              Hxs Hys Hc Hi) as (x & y & c & Hci & Hnode).
  assert (Group.id r ∈ reps ↔
            ∃ k members, (k, members) ∈ cm ∧ community !! i = Some k
              ∧ representative_of sort_values group members = Ok (Group.id r))
    as Hchosen.
  { split.
    - intros [j Hj]%list_elem_of_lookup.
      destruct (Forall2_lookup_r _ _ _ _ _ Hreps Hj) as ([k ms] & Hkm & Hrep).
      simpl in Hrep. apply list_elem_of_lookup_2 in Hkm.
      exists k, ms. split_and!; [done| |done].
      by eapply representative_of_member.
    - intros (k & ms & [j Hj]%list_elem_of_lookup & _ & Hrep).
      destruct (Forall2_lookup_l _ _ _ _ _ Hreps Hj) as (rep & Hrj & Hrep').
      simpl in Hrep'. rewrite Hrep in Hrep'. injection Hrep' as <-.
      by eapply list_elem_of_lookup_2. }
  eexists _, _, _. split_and!.
  - rewrite lookup_app_l; [exact Hnode|].
    rewrite Hnlen. by eapply lookup_lt_Some.
  - done.
  - simpl. by rewrite bool_decide_eq_true.
  - simpl. rewrite dict_of_is_Some by lia. done.
  - simpl. intros Honly.
    assert (Group.id r ∉ reps) as Hnot.
    { rewrite Hchosen. intros (k & ms & Hkm & Hk & _).
      destruct (singleton_not_comm_member group community k ms i Hnd Hkm Hk)
        as (j & Hne & Hj).
      apply Hne, Honly. by rewrite Hj, Hk. }
    split; [by apply bool_decide_eq_false|].
    apply eq_None_not_Some. by rewrite dict_of_is_Some by lia.
Qed.

Lemma representative_fields_iff_chosen_witness :
  ∃ graph,
    (similarity_graph Fixture.group3 7 Fixture.store4).2 = Ok graph
    ∧ (∀ i e,
         [ make_node Fixture.no_log (Group.mk "A" "a" 10 1) 0 0 0 false None "a";
           make_node Fixture.no_log (Group.mk "B" "b" 20 2) 1 1 0 true
             (Some "a") "a";
           make_node Fixture.no_log (Group.mk "C" "c" 5 3) 2 2 0 false None "a";
           Edge "A" "B" ((8 # 10) * 5) "0"; Edge "B" "C" ((6 # 10) * 5) "0" ]
           !! i = Some e →
         is_node e = true → i < length Fixture.group3)
    ∧ ∀ i r, Fixture.group3 !! i = Some r →
        let community := Fixture.one_community graph in
        let chosen :=
          ∃ k members,
            (k, members) ∈ comm_members Fixture.group3 community
            ∧ community !! i = Some k
            ∧ representative_of Fixture.stable_sort_values Fixture.group3
                members = Ok (Group.id r) in
        ∃ nd pos cls,
          [ make_node Fixture.no_log (Group.mk "A" "a" 10 1) 0 0 0 false None "a";
            make_node Fixture.no_log (Group.mk "B" "b" 20 2) 1 1 0 true
              (Some "a") "a";
            make_node Fixture.no_log (Group.mk "C" "c" 5 3) 2 2 0 false None "a";
            Edge "A" "B" ((8 # 10) * 5) "0"; Edge "B" "C" ((6 # 10) * 5) "0" ]
            !! i = Some (Node nd pos cls)
          ∧ node_id nd = Group.id r
          ∧ (node_representative nd = true ↔ chosen)
          ∧ (is_Some (node_rep_label nd) ↔ chosen)
          ∧ ((∀ j, community !! j = community !! i → j = i) →
             node_representative nd = false ∧ node_rep_label nd = None).
Proof.
  apply (representative_fields_iff_chosen Fixture.annot3 Fixture.onto3
           Fixture.stable_sort_values Fixture.diagonal_layout
           Fixture.one_community Fixture.no_log Fixture.group3 7
           Fixture.store4 _
           (stylesheet [(0, "#2E91E5")])
           stable_sort_values_descending).
  - by vm_compute; repeat constructor; set_solver.
  - by vm_compute.
Defined.

End LabelFacts.

(** ** More on the ontology queries *)

Module OntologyMore.
Import Ontology OntologyFacts.

Lemma elem_of_size_pos (x : string) (X : gset string) : x ∈ X → 0 < size X.
Proof.
  intros Hx. destruct (decide (size X = 0)) as [Hz|]; [|lia].
  apply size_empty_inv in Hz. set_solver.
Qed.

Lemma walk_suffix graph s q e l1 x l2 :
  walk graph s q e → s :: q = l1 ++ x :: l2 → walk graph x l2 e.
Proof.
  intros Hw. revert l1.
  induction Hw as [s|s n q e nbrs Hg Hn Hw IH]; intros l1 Heq.
  - destruct l1 as [|? [|? ?]]; simplify_eq/=. constructor.
  - destruct l1 as [|y l1]; simplify_eq/=; [by econstructor|].
    by eapply IH.
Qed.

(** Loops can be cut out of a walk. *)
Lemma walk_simple graph s q e :
  walk graph s q e → ∃ q', walk graph s q' e ∧ NoDup (s :: q').
Proof.
  induction 1 as [s|s n q e nbrs Hg Hn Hw (q' & Hw' & Hnd)].
  - exists []. split; [constructor|apply NoDup_singleton].
  - destruct (decide (s ∈ n :: q')) as [Hin|Hnin].
    + apply list_elem_of_split in Hin as (l1 & l2 & Heq).
      exists l2. split; [by eapply walk_suffix|].
      rewrite Heq in Hnd. by apply NoDup_app in Hnd as (_ & _ & Hnd).
    + exists (n :: q'). split; [by econstructor|by constructor].
Qed.

(** X1. The search returns no path exactly when [end_] cannot be reached
    from [start] along the edges of the graph. *)
Theorem find_all_paths_nil_iff_unreachable (graph : graph_t)
    (start end_ : string) :
  find_all_paths graph start end_ [] = [] ↔
    ∀ q, ¬ walk graph start q end_.
Proof.
  split.
  - intros Hnil q Hw. apply walk_simple in Hw as (q' & Hw & Hnd).
    pose proof (find_all_paths_complete graph start end_ q' Hw Hnd) as Hin.
    rewrite Hnil in Hin. by apply elem_of_nil in Hin.
  - intros Hno. destruct (find_all_paths graph start end_ []) as [|p ps] eqn:Hps;
      [done|].
    assert (p ∈ find_all_paths graph start end_ []) as Hp
      by (rewrite Hps; by left).
    apply find_all_paths_sound in Hp as (q & _ & Hw & _). by destruct (Hno q).
Qed.

(** X2. The ancestors of a node are the nodes on the loop-free walks from
    it to a root, and the node alone when no root can be reached. *)
Theorem get_ancestors_characterised (node : string) (roots : list string)
    (graph : graph_t) (x : string) :
  x ∈ get_ancestors node roots graph ↔
    (∃ root q, root ∈ roots ∧ walk graph node q root
               ∧ NoDup (node :: q) ∧ x ∈ node :: q)
    ∨ (x = node ∧ ∀ root q, root ∈ roots → ¬ walk graph node q root).
Proof.
  rewrite get_ancestors_unfold. simpl. case_decide as Hsz.
  - rewrite elem_of_ancestors_paths. split.
    + intros (root & p & Hroot & Hp & Hx).
      apply find_all_paths_sound in Hp as (q & -> & Hw & Hnd).
      left. by exists root, q.
    + intros [(root & q & Hroot & Hw & Hnd & Hx)|[_ Hno]].
      * exists root, (node :: q). split_and!; [done| |done].
        by apply find_all_paths_complete.
      * exfalso. apply size_pos_elem_of in Hsz as [y Hy].
        apply elem_of_ancestors_paths in Hy as (root & p & Hroot & Hp & _).
        apply find_all_paths_sound in Hp as (q & _ & Hw & _).
        by eapply Hno.
  - rewrite elem_of_singleton. split.
    + intros ->. right. split; [done|]. intros root q Hroot Hw.
      apply walk_simple in Hw as (q' & Hw & Hnd). apply Hsz.
      apply (elem_of_size_pos node).
      apply elem_of_ancestors_paths. exists root, (node :: q').
      split_and!; [done|by apply find_all_paths_complete|by left].
    + intros [(root & q & Hroot & Hw & Hnd & Hx)|[-> _]]; [|done].
      exfalso. apply Hsz, (elem_of_size_pos node).
      apply elem_of_ancestors_paths. exists root, (node :: q).
      split_and!; [done|by apply find_all_paths_complete|by left].
Qed.

Lemma elem_of_foldl_intersection (s : gset string) (rest : list (gset string)) x :
  x ∈ foldl (∩) s rest ↔ x ∈ s ∧ ∀ t, t ∈ rest → x ∈ t.
Proof.
  revert s. induction rest as [|t rest IH]; intros s; simpl.
  - split; [|by intros [? _]]. intros Hx. split; [done|].
    by intros t ?%elem_of_nil.
  - rewrite IH, elem_of_intersection. split.
    + intros [[Hs Ht] Hrest]. split; [done|].
      intros t' [->|?]%elem_of_cons; [done|by apply Hrest].
    + intros [Hs Hall]. split_and!; [done|apply Hall; by left|].
      intros t' Ht'. apply Hall. by right.
Qed.

Lemma get_comm_ancestors_spec leaves roots graph :
  leaves ≠ [] →
  ∃ s, get_comm_ancestors leaves roots graph = Ok s
       ∧ ∀ x, x ∈ s ↔ ∀ leaf, leaf ∈ leaves → x ∈ get_ancestors leaf roots graph.
Proof.
  intros Hne. destruct leaves as [|l0 leaves]; [done|].
  unfold get_comm_ancestors. simpl. eexists. split; [done|].
  intros x. rewrite elem_of_foldl_intersection. split.
  - intros [H0 Hall] leaf [->|Hleaf]%elem_of_cons; [done|].
    apply Hall. apply list_elem_of_fmap. by exists leaf.
  - intros Hall. split; [apply Hall; by left|].
    intros t (leaf & -> & Hleaf)%list_elem_of_fmap. apply Hall. by right.
Qed.

(** X3. The common ancestors of a non-empty list of leaves are exactly
    the nodes that are ancestors of every leaf; for an empty list the
    call raises [TypeError]. *)
Theorem get_comm_ancestors_characterised (leaves roots : list string)
    (graph : graph_t) :
  match leaves with
  | [] => get_comm_ancestors leaves roots graph = Raise TypeError
  | _ :: _ =>
      ∃ s, get_comm_ancestors leaves roots graph = Ok s
           ∧ ∀ x, x ∈ s ↔
               ∀ leaf, leaf ∈ leaves → x ∈ get_ancestors leaf roots graph
  end.
Proof.
  destruct leaves as [|l0 leaves]; [done|].
  by apply get_comm_ancestors_spec.
Qed.

Lemma root_in_ancestors node roots graph root q :
  root ∈ roots → walk graph node q root →
  root ∈ get_ancestors node roots graph.
Proof.
  intros Hroot Hw. apply walk_simple in Hw as (q' & Hw & Hnd).
  rewrite get_ancestors_unfold. simpl.
  assert (root ∈ (list_to_set (concat (concat (filter (λ path, 0 < length path)
            ((λ root, find_all_paths graph node root []) <$> roots))))
            : gset string)) as Hin.
  { apply elem_of_ancestors_paths. exists root, (node :: q').
    split_and!; [done|by apply find_all_paths_complete|].
    by eapply walk_end_elem. }
  rewrite decide_True; [done|]. by apply (elem_of_size_pos root).
Qed.

(** X4. A root that every leaf of a group can reach is one of the common
    ancestors of the group. *)
Theorem common_root_is_common_ancestor (leaves roots : list string)
    (graph : graph_t) (root : string) :
  leaves ≠ [] →
  root ∈ roots →
  (∀ leaf, leaf ∈ leaves → ∃ q, walk graph leaf q root) →
  ∃ s, get_comm_ancestors leaves roots graph = Ok s ∧ root ∈ s.
Proof.
  intros Hne Hroot Hreach.
  destruct (get_comm_ancestors_spec leaves roots graph Hne) as (s & Hs & Hin).
  exists s. split; [done|]. apply Hin. intros leaf Hleaf.
  destruct (Hreach leaf Hleaf) as [q Hw]. by eapply root_in_ancestors.
Qed.

Lemma common_root_is_common_ancestor_witness :
  ∃ s, get_comm_ancestors ["B"; "C"] ["R"] Fixture.onto3 = Ok s ∧ "R" ∈ s.
Proof.
  apply (common_root_is_common_ancestor ["B"; "C"] ["R"] Fixture.onto3 "R").
  - done.
  - by left.
  - intros leaf [->|[->|[]%elem_of_nil]%elem_of_cons]%elem_of_cons.
    + exists ["A"; "R"]. repeat (econstructor; [by vm_compute|set_solver|]).
      constructor.
    + exists ["A"; "R"]. repeat (econstructor; [by vm_compute|set_solver|]).
      constructor.
Defined.

Lemma NoDup_concat_tagged {A B} (R : A → list B → Prop)
    (l : list A) (pss : list (list B)) :
  Forall2 R l pss → NoDup l →
  (∀ x ps, R x ps → NoDup ps) →
  (∀ x y ps ps' p, R x ps → R y ps' → p ∈ ps → p ∈ ps' → x = y) →
  NoDup (concat pss).
Proof.
  intros Hall Hnd Hps Htag.
  induction Hall as [|x ps l pss Hx Hall IH]; simpl; [constructor|].
  apply NoDup_cons in Hnd as [Hnin Hnd]. apply NoDup_app. split_and!.
  - by eapply Hps.
  - intros p Hp (ps' & Hp' & Hin)%elem_of_concat.
    apply list_elem_of_lookup in Hin as [j Hj].
    destruct (Forall2_lookup_r _ _ _ _ _ Hall Hj) as (y & Hy & Hr).
    assert (x = y) as -> by (by eapply Htag).
    apply Hnin. by eapply list_elem_of_lookup_2.
  - by apply IH.
Qed.

Lemma find_all_paths_fuel_NoDup fuel graph start end_ path ps :
  map_Forall (λ _ nbrs, NoDup nbrs) graph →
  find_all_paths_fuel fuel graph start end_ path = Some ps →
  NoDup ps.
Proof.
  intros Hg. revert start path ps.
  induction fuel as [|fuel IH]; intros start path ps; [done|].
  simpl. case_decide.
  - intros [= <-]. apply NoDup_singleton.
  - destruct (graph !! start) as [nbrs|] eqn:Hnbrs; [|intros [= <-]; constructor].
    intros Hps. apply fmap_Some in Hps as (pss & Hm & ->).
    apply mapM_Some in Hm.
    eapply NoDup_concat_tagged; [exact Hm| | |].
    + apply NoDup_filter. by eapply Hg.
    + intros x ps Hx. simpl in Hx. exact (IH _ _ _ Hx).
    + intros x y ps ps' p Hx Hy Hp Hp'. simpl in Hx, Hy.
      destruct (find_all_paths_fuel_sound _ _ _ _ _ _ _ Hx Hp)
        as (q & -> & _).
      destruct (find_all_paths_fuel_sound _ _ _ _ _ _ _ Hy Hp')
        as (q' & Heq & _).
      apply app_inv_head in Heq. by injection Heq.
Qed.

(** X5. When no neighbour list of the graph names a node twice, the
    search returns every path once. *)
Theorem find_all_paths_NoDup (graph : graph_t) (start end_ : string) :
  map_Forall (λ _ nbrs, NoDup nbrs) graph →
  NoDup (find_all_paths graph start end_ []).
Proof.
  intros Hg. eapply find_all_paths_fuel_NoDup; [done|].
  apply find_all_paths_spec.
Qed.

Lemma find_all_paths_NoDup_witness :
  NoDup (find_all_paths Fixture.onto3 "B" "R" []).
Proof.
  apply (find_all_paths_NoDup Fixture.onto3 "B" "R").
  apply (bool_decide_unpack _). by vm_compute.
Defined.

End OntologyMore.


(** ** More on the similarity graph *)

Module GraphMore.
Import Numpy Igraph Pandas GraphFacts.

(** The sub-matrix the graph is built from, entry by entry. *)
Lemma similarity_graph_entries group wsem (σ : store) m n :
  σ !! wsem = Some m →
  length m = n →
  Forall (λ row, length row = n) m →
  Forall (λ r, Group.ind r < n) group →
  ∃ σ' g thr,
    similarity_graph group wsem σ = (σ', Ok g)
    ∧ Weighted_Adjacency thr = Ok g
    ∧ length thr = length group
    ∧ vcount g = length group
    ∧ ∀ i j ri rj, group !! i = Some ri → group !! j = Some rj →
        entry thr i j = threshold (entry m (Group.ind ri) (Group.ind rj)).
Proof.
  intros Hm Hlen Hsq Hind.
  set (idx := Group.ind <$> group).
  assert (Forall (λ i, i < n) idx) as Hidx.
  { unfold idx. by apply Forall_fmap. }
  destruct (take_indices_ok m idx) as (rows & Hrows & Hrlen & Hrlook).
  { by rewrite Hlen. }
  assert (Forall (λ row, length row = n) rows) as Hrsq.
  { apply Forall_lookup. intros k row Hk.
    destruct (lookup_lt_is_Some_2 idx k) as [i Hi].
    { rewrite <-Hrlen. by eapply lookup_lt_Some. }
    rewrite (Hrlook k i Hi) in Hk.
    by eapply (proj1 (Forall_lookup _ _) Hsq). }
  destruct (take_columns_ok rows idx n Hrsq Hidx)
    as (sub & Hsub & Hslen & Hssq & Hslook).
  pose proof (similarity_graph_run group wsem σ m Hm) as Hrun.
  fold idx in Hrun. rewrite Hrows in Hrun.
  destruct Hrun as (r1 & _ & Hrun). rewrite Hsub in Hrun.
  destruct Hrun as (r2 & _ & _ & Hrun).
  set (thr := map (map threshold) sub) in *.
  assert (length thr = length group) as Hthrlen.
  { unfold thr, idx in *. by rewrite length_map, Hslen, Hrlen, length_fmap. }
  destruct (Weighted_Adjacency_square thr) as (g & Hg & Hvc).
  { unfold thr. rewrite length_map. apply Forall_fmap.
    eapply Forall_impl; [exact Hssq|]. intros row Hrow. simpl.
    rewrite length_map, Hrow, Hslen, Hrlen. done. }
  eexists _, g, thr.
  split_and!; [by rewrite Hrun, Hg|done|done|by rewrite Hvc|].
  intros i j ri rj Hi Hj. unfold thr. rewrite entry_fmap by done.
  f_equal. unfold entry.
  assert (idx !! i = Some (Group.ind ri)) as Hii
    by (unfold idx; by rewrite list_lookup_fmap, Hi).
  assert (idx !! j = Some (Group.ind rj)) as Hjj
    by (unfold idx; by rewrite list_lookup_fmap, Hj).
  destruct (lookup_lt_is_Some_2 rows i) as [row Hrow].
  { rewrite Hrlen. by eapply lookup_lt_Some. }
  rewrite (Hslook i j row _ Hrow Hjj).
  rewrite <-(Hrlook i _ Hii), Hrow. done.
Qed.

(** The larger of two thresholded entries, when one of them passes. *)
Lemma threshold_max (x y : Q) :
  let w := if Qltb (threshold x) (threshold y)
           then threshold y else threshold x in
  (Qeq_bool w 0 = false ↔ (1 # 2 <= x)%Q ∨ (1 # 2 <= y)%Q)
  ∧ ((1 # 2 <= x)%Q ∨ (1 # 2 <= y)%Q → w = if Qltb x y then y else x).
Proof.
  simpl.
  destruct (Qlt_le_dec x (1 # 2)) as [Hx|Hx];
    destruct (Qlt_le_dec y (1 # 2)) as [Hy|Hy].
  - rewrite (threshold_below x), (threshold_below y) by lra.
    split; [|intros [?|?]; lra].
    split; [done|intros [?|?]; lra].
  - rewrite (threshold_below x), (threshold_above y) by lra.
    assert (Qltb 0 y = true) as -> by (apply Qltb_spec; lra).
    assert (Qltb x y = true) as -> by (apply Qltb_spec; lra).
    split; [|done]. rewrite <-(threshold_above y) at 1 by done.
    rewrite threshold_nonzero. split; [by right|done].
  - rewrite (threshold_above x), (threshold_below y) by lra.
    assert (Qltb x 0 = false) as ->.
    { apply not_true_iff_false. rewrite Qltb_spec. lra. }
    assert (Qltb x y = false) as ->.
    { apply not_true_iff_false. rewrite Qltb_spec. lra. }
    split; [|done]. rewrite <-(threshold_above x) at 1 by done.
    rewrite threshold_nonzero. split; [by left|done].
  - rewrite (threshold_above x), (threshold_above y) by lra.
    split; [|done]. destruct (Qltb x y).
    + rewrite <-(threshold_above y) at 1 by done.
      rewrite threshold_nonzero. split; [by right|done].
    + rewrite <-(threshold_above x) at 1 by done.
      rewrite threshold_nonzero. split; [by left|done].
Qed.

Lemma NoDup_pair_edge m i j : NoDup (pair_edge m i j).
Proof.
  unfold pair_edge. simpl. destruct (Qeq_bool _ _); [constructor|].
  apply NoDup_singleton.
Qed.

Lemma NoDup_es_Weighted_Adjacency m g :
  Weighted_Adjacency m = Ok g → NoDup (es g).
Proof.
  unfold Weighted_Adjacency. case_decide; [|done]. intros [= <-]. simpl.
  apply NoDup_bind; [| |apply NoDup_seq].
  - intros i1 i2 e _ _ (j1 & He1 & _)%list_elem_of_bind
      (j2 & He2 & _)%list_elem_of_bind.
    apply elem_of_pair_edge in He1 as [_ ->].
    apply elem_of_pair_edge in He2 as [_ [= -> _ _]]. done.
  - intros i _. apply NoDup_bind; [| |apply NoDup_seq].
    + intros j1 j2 e _ _ He1 He2.
      apply elem_of_pair_edge in He1 as [_ ->].
      apply elem_of_pair_edge in He2 as [_ [= -> _]]. done.
    + intros j _. apply NoDup_pair_edge.
Qed.

(** X6. On a square matrix that covers the indices of the group (it need
    not be symmetric), the edge table of the graph lists every pair of
    rows [a < b] at most once and no other pair; the pair is listed
    exactly when one of its two similarities is at least 0.5, and with the
    larger of the two as its weight. *)
Theorem similarity_graph_edge_table group wsem (σ : store) m n :
  σ !! wsem = Some m →
  length m = n →
  Forall (λ row, length row = n) m →
  Forall (λ r, Group.ind r < n) group →
  ∃ σ' g,
    similarity_graph group wsem σ = (σ', Ok g)
    ∧ vcount g = length group
    ∧ NoDup (es g)
    ∧ ∀ a b w,
        (a, b, w) ∈ es g ↔
          ∃ ra rb,
            group !! a = Some ra ∧ group !! b = Some rb ∧ a < b
            ∧ let x := entry m (Group.ind ra) (Group.ind rb) in
              let y := entry m (Group.ind rb) (Group.ind ra) in
              ((1 # 2 <= x)%Q ∨ (1 # 2 <= y)%Q)
              ∧ w = if Qltb x y then y else x.
Proof.
  intros Hm Hlen Hsq Hind.
  destruct (similarity_graph_entries group wsem σ m n Hm Hlen Hsq Hind)
    as (σ' & g & thr & Hrun & Hg & Hthr & Hvc & Hentry).
  exists σ', g. split_and!; [done|done|by eapply NoDup_es_Weighted_Adjacency|].
  intros a b w. rewrite (elem_of_es_Weighted_Adjacency thr g) by done.
  rewrite elem_of_pair_edge. simpl. rewrite Hthr. split.
  - intros ([Hab Hb] & Hnz & Hw).
    destruct (lookup_lt_is_Some_2 group a) as [ra Hra]; [lia|].
    destruct (lookup_lt_is_Some_2 group b) as [rb Hrb]; [lia|].
    rewrite (Hentry a b ra rb Hra Hrb), (Hentry b a rb ra Hrb Hra) in Hnz, Hw.
    destruct (threshold_max (entry m (Group.ind ra) (Group.ind rb))
                (entry m (Group.ind rb) (Group.ind ra))) as [Hiff Hmax].
    simpl in Hiff, Hmax. apply Hiff in Hnz.
    exists ra, rb. split_and!; [done..|]. injection Hw as ->. by apply Hmax.
  - intros (ra & rb & Hra & Hrb & Hab & Hxy & ->).
    pose proof (lookup_lt_Some _ _ _ Hrb) as Hb.
    rewrite (Hentry a b ra rb Hra Hrb), (Hentry b a rb ra Hrb Hra).
    destruct (threshold_max (entry m (Group.ind ra) (Group.ind rb))
                (entry m (Group.ind rb) (Group.ind ra))) as [Hiff Hmax].
    simpl in Hiff, Hmax. split_and!; [done..|by apply Hiff|].
    by rewrite Hmax.
Qed.

Lemma similarity_graph_edge_table_witness :
  ∃ σ' g,
    similarity_graph Fixture.group3 7 Fixture.store4 = (σ', Ok g)
    ∧ vcount g = 3
    ∧ NoDup (es g)
    ∧ ∀ a b w,
        (a, b, w) ∈ es g ↔
          ∃ ra rb,
            Fixture.group3 !! a = Some ra ∧ Fixture.group3 !! b = Some rb
            ∧ a < b
            ∧ let x := entry Fixture.sim4 (Group.ind ra) (Group.ind rb) in
              let y := entry Fixture.sim4 (Group.ind rb) (Group.ind ra) in
              ((1 # 2 <= x)%Q ∨ (1 # 2 <= y)%Q)
              ∧ w = if Qltb x y then y else x.
Proof.
  apply (similarity_graph_edge_table Fixture.group3 7 Fixture.store4
           Fixture.sim4 4).
  - reflexivity.
  - reflexivity.
  - by vm_compute; repeat constructor.
  - by vm_compute; repeat constructor; lia.
Defined.

Lemma take_indices_out_of_range {A} (l : list A) (idx : list nat) :
  Exists (λ i, length l ≤ i) idx → take_indices l idx = Raise IndexError.
Proof.
  induction idx as [|i idx IH]; intros Hex; [by apply Exists_nil in Hex|].
  simpl. unfold index.
  destruct (l !! i) as [x|] eqn:Hi; [|done].
  apply Exists_cons in Hex as [Hex|Hex].
  - apply lookup_lt_Some in Hi. lia.
  - by rewrite (IH Hex).
Qed.

(** X7. When a row of the group carries an index that is not a row of
    the similarity matrix, the request raises [IndexError] at the first
    selection and leaves the store of arrays as it was: no array is
    created or changed. *)
Theorem index_out_of_range_raises annot onto_graph sort_values layout
    community_multilevel np_log group wsem (σ : store) m :
  σ !! wsem = Some m →
  Exists (λ r, length m ≤ Group.ind r) group →
  get_cytoscape_components annot onto_graph sort_values layout
    community_multilevel np_log group wsem σ = (σ, Raise IndexError).
Proof.
  intros Hm Hex.
  pose proof (similarity_graph_run group wsem σ m Hm) as Hrun.
  rewrite take_indices_out_of_range in Hrun.
  - unfold get_cytoscape_components, mbind, M_bind. by rewrite Hrun.
  - apply Exists_fmap. by eapply Exists_impl.
Qed.

Lemma index_out_of_range_raises_witness :
  get_cytoscape_components Fixture.annot3 Fixture.onto3
    Fixture.stable_sort_values Fixture.diagonal_layout
    Fixture.one_community Fixture.no_log
    [Group.mk "A" "a" 10 1; Group.mk "B" "b" 20 9] 7 Fixture.store4
  = (Fixture.store4, Raise IndexError).
Proof.
  apply (index_out_of_range_raises Fixture.annot3 Fixture.onto3
           Fixture.stable_sort_values Fixture.diagonal_layout
           Fixture.one_community Fixture.no_log
           [Group.mk "A" "a" 10 1; Group.mk "B" "b" 20 9] 7 Fixture.store4
           Fixture.sim4).
  - reflexivity.
  - apply Exists_cons_tl, Exists_cons_hd. by vm_compute; lia.
Defined.

End GraphMore.

(** ** The render payload of a successful request *)

Module PayloadFacts.
Import Ontology Numpy Igraph Pandas GraphFacts LabelFacts.

Lemma coordinates_inv layout n graph xs ys :
  coordinates layout n graph = Ok (xs, ys) →
  transpose_unpack2 (layout graph) = Ok (xs, ys)
  ∧ length xs = n ∧ length ys = n.
Proof.
  unfold coordinates. destruct (transpose_unpack2 _) as [[xs' ys']|]; [|done].
  cbn [mbind result_bind].
  destruct (set_column n xs') as [xs''|] eqn:Hx; [|done].
  cbn [mbind result_bind].
  destruct (set_column n ys') as [ys''|] eqn:Hy; [|done].
  cbn [mbind result_bind mret result_ret]. intros [= <- <-].
  apply set_column_Ok in Hx as [-> Hx], Hy as [-> Hy]. done.
Qed.

(** Every step of a successful run, with what it returned. *)
Lemma components_of_graph_inv annot onto_graph sort_values layout
    community_multilevel np_log group graph elements ss :
  components_of_graph annot onto_graph sort_values layout
    community_multilevel np_log group graph = Ok (elements, ss) →
  let community := community_multilevel graph in
  let cm := comm_members group community in
  ∃ xs ys es' color reps ca labels edges,
    transpose_unpack2 (layout graph) = Ok (xs, ys)
    ∧ length xs = length group ∧ length ys = length group
    ∧ length community = length group
    ∧ edge_list group graph = Ok es'
    ∧ node_colors community = Ok color
    ∧ representatives sort_values group cm = Ok reps
    ∧ comm_ancestors annot onto_graph cm = Ok ca
    ∧ rep_labels annot sort_values cm ca = Ok labels
    ∧ mapM (make_edge group community) es' = Ok edges
    ∧ elements
        = node_list np_log group xs ys community reps labels ca ++ edges
    ∧ ss = stylesheet (color_map community).
Proof.
  unfold components_of_graph. intros H.
  destruct (coordinates layout (length group) graph) as [[xs ys]|] eqn:Hxy;
    [|done].
  cbn [mbind result_bind] in H.
  destruct (edge_list group graph) as [es'|] eqn:Hes; [|done].
  cbn [mbind result_bind] in H.
  destruct (set_column (length group) (community_multilevel graph))
    as [community|] eqn:Hcomm; [|done].
  cbn [mbind result_bind] in H.
  apply set_column_Ok in Hcomm as [-> Hcomm].
  destruct (node_colors _) as [color|] eqn:Hcol; [|done].
  cbn [mbind result_bind] in H.
  destruct (representatives sort_values group _) as [reps|] eqn:Hreps; [|done].
  cbn [mbind result_bind] in H.
  destruct (comm_ancestors annot onto_graph _) as [ca|] eqn:Hca; [|done].
  cbn [mbind result_bind] in H.
  destruct (rep_labels annot sort_values _ ca) as [labels|] eqn:Hlabels; [|done].
  cbn [mbind result_bind] in H.
  destruct (mapM _ es') as [edges|] eqn:Hedges; [|done].
  cbn [mbind result_bind mret result_ret] in H.
  injection H as <- <-.
  apply coordinates_inv in Hxy as (Hxy & Hxs & Hys).
  simpl. exists xs, ys, es', color, reps, ca, labels, edges.
  by split_and!.
Qed.

Lemma get_cytoscape_components_inv annot onto_graph sort_values layout
    community_multilevel np_log group wsem (σ : store) payload :
  (get_cytoscape_components annot onto_graph sort_values layout
     community_multilevel np_log group wsem σ).2 = Ok payload →
  ∃ graph,
    (similarity_graph group wsem σ).2 = Ok graph
    ∧ components_of_graph annot onto_graph sort_values layout
        community_multilevel np_log group graph = Ok payload.
Proof.
  unfold get_cytoscape_components, mbind, M_bind, lift. intros Hrun.
  destruct (similarity_graph group wsem σ) as [σ' [graph|e]]; [|done].
  by exists graph.
Qed.

Lemma index_Ok {A} (l : list A) i x : index l i = Ok x ↔ l !! i = Some x.
Proof. unfold index. destruct (l !! i); naive_solver. Qed.

(** One row of the edge list per row of the edge table. *)
Lemma edge_list_lookup group graph es' k a b w :
  edge_list group graph = Ok es' →
  es graph !! k = Some (a, b, w) →
  ∃ ra rb, group !! a = Some ra ∧ group !! b = Some rb
           ∧ es' !! k = Some (Group.id ra, Group.id rb, w).
Proof.
  intros Hes Hk. apply mapM_Ok in Hes.
  destruct (Forall2_lookup_l _ _ _ _ _ Hes Hk) as (e & He & Hrow).
  simpl in Hrow.
  destruct (index group a) as [ra|] eqn:Hra; [|done].
  cbn [mbind result_bind] in Hrow.
  destruct (index group b) as [rb|] eqn:Hrb; [|done].
  cbn [mbind result_bind mret result_ret] in Hrow. injection Hrow as <-.
  apply index_Ok in Hra, Hrb. by exists ra, rb.
Qed.

(** With distinct ids, the first row that carries the id of a row is
    that row. *)
Lemma make_edge_class group community a ra c t w e :
  NoDup (Group.id <$> group) →
  group !! a = Some ra → community !! a = Some c →
  make_edge group community (Group.id ra, t, w) = Ok e →
  e = Edge (Group.id ra) t (w * 5)%Q (pretty c).
Proof.
  intros Hnd Hra Hc. unfold make_edge.
  destruct (iloc0 _) as [rc|] eqn:Hrc; [|done].
  cbn [mbind result_bind mret result_ret]. intros [= <-].
  apply iloc0_Ok_inv, head_filter_first in Hrc as (j & Hj & Hid & _).
  destruct rc as [r c']. apply lookup_zip_Some in Hj as [Hr Hc'].
  simpl in *.
  assert (j = a) as ->.
  { eapply NoDup_lookup; [exact Hnd|..].
    - by rewrite list_lookup_fmap, Hr.
    - by rewrite list_lookup_fmap, Hra, Hid. }
  congruence.
Qed.

(** X8. In the payload of a successful request over rows of distinct
    ids, the edges follow the nodes, one per row of the edge table of the
    similarity graph and in its order: the edge of the pair [(a, b)] goes
    from the id of row [a] to the id of row [b], carries five times the
    weight, and has the community of row [a] as its class. *)
Theorem payload_edges annot onto_graph sort_values layout
    community_multilevel np_log group wsem (σ : store) elements ss :
  NoDup (Group.id <$> group) →
  (get_cytoscape_components annot onto_graph sort_values layout
     community_multilevel np_log group wsem σ).2 = Ok (elements, ss) →
  ∃ graph,
    (similarity_graph group wsem σ).2 = Ok graph
    ∧ length elements = length group + length (es graph)
    ∧ ∀ k a b w, es graph !! k = Some (a, b, w) →
        ∃ ra rb c,
          group !! a = Some ra ∧ group !! b = Some rb
          ∧ community_multilevel graph !! a = Some c
          ∧ elements !! (length group + k)
            = Some (Edge (Group.id ra) (Group.id rb) (w * 5)%Q (pretty c)).
Proof.
  intros Hnd Hrun.
  apply get_cytoscape_components_inv in Hrun as (graph & Hsg & Hrun).
  exists graph. split; [done|].
  apply components_of_graph_inv in Hrun
    as (xs & ys & es' & color & reps & ca & labels & edges & _ & Hxs & Hys
        & Hc & Hes & _ & _ & _ & _ & Hedges & -> & _).
  pose proof (length_node_list np_log group xs ys (community_multilevel graph)
                reps labels ca Hxs Hys Hc) as Hnlen.
  pose proof Hes as Hes'. apply mapM_Ok in Hes'. apply mapM_Ok in Hedges.
  split.
  { rewrite length_app, Hnlen.
    by rewrite <-(Forall2_length _ _ _ Hedges), <-(Forall2_length _ _ _ Hes'). }
  intros k a b w Hk.
  destruct (edge_list_lookup group graph es' k a b w Hes Hk)
    as (ra & rb & Hra & Hrb & Hk').
  destruct (lookup_lt_is_Some_2 (community_multilevel graph) a) as [c Hca].
  { rewrite Hc. by eapply lookup_lt_Some. }
  destruct (Forall2_lookup_l _ _ _ _ _ Hedges Hk') as (e & He & Hmk).
  apply (make_edge_class group _ a ra c) in Hmk; [|done..]. subst e.
  exists ra, rb, c. split_and!; [done..|].
  rewrite lookup_app_r by lia. rewrite Hnlen.
  by replace (length group + k - length group) with k by lia.
Qed.

Lemma payload_edges_witness :
  ∃ graph,
    (similarity_graph Fixture.group3 7 Fixture.store4).2 = Ok graph
    ∧ length
        [ make_node Fixture.no_log (Group.mk "A" "a" 10 1) 0 0 0 false None "a";
          make_node Fixture.no_log (Group.mk "B" "b" 20 2) 1 1 0 true
            (Some "a") "a";
          make_node Fixture.no_log (Group.mk "C" "c" 5 3) 2 2 0 false None "a";
          Edge "A" "B" ((8 # 10) * 5) "0"; Edge "B" "C" ((6 # 10) * 5) "0" ]
      = length Fixture.group3 + length (es graph)
    ∧ ∀ k a b w, es graph !! k = Some (a, b, w) →
        ∃ ra rb c,
          Fixture.group3 !! a = Some ra ∧ Fixture.group3 !! b = Some rb
          ∧ Fixture.one_community graph !! a = Some c
          ∧ [ make_node Fixture.no_log (Group.mk "A" "a" 10 1) 0 0 0 false
                None "a";
              make_node Fixture.no_log (Group.mk "B" "b" 20 2) 1 1 0 true
                (Some "a") "a";
              make_node Fixture.no_log (Group.mk "C" "c" 5 3) 2 2 0 false
                None "a";
              Edge "A" "B" ((8 # 10) * 5) "0";
              Edge "B" "C" ((6 # 10) * 5) "0" ]
              !! (length Fixture.group3 + k)
            = Some (Edge (Group.id ra) (Group.id rb) (w * 5)%Q (pretty c)).
Proof.
  apply (payload_edges Fixture.annot3 Fixture.onto3
           Fixture.stable_sort_values Fixture.diagonal_layout
           Fixture.one_community Fixture.no_log Fixture.group3 7
           Fixture.store4 _ (stylesheet [(0, "#2E91E5")])).
  - by vm_compute; repeat constructor; set_solver.
  - by vm_compute.
Defined.

Lemma point_Some r x y : point r = Some (x, y) → r = [x; y].
Proof.
  destruct r as [|a [|b [|c r]]]; simpl; try done. by intros [= -> ->].
Qed.

Lemma transpose_unpack2_lookup coords xs ys i x y :
  transpose_unpack2 coords = Ok (xs, ys) →
  xs !! i = Some x → ys !! i = Some y → coords !! i = Some [x; y].
Proof.
  unfold transpose_unpack2. destruct coords as [|p0 coords]; [done|].
  destruct (mapM point (p0 :: coords)) as [ps|] eqn:Hps; [|done].
  intros [= <- <-] Hx Hy. apply mapM_Some in Hps.
  rewrite list_lookup_fmap in Hx, Hy.
  destruct (ps !! i) as [[x' y']|] eqn:Hi; [|done].
  simpl in Hx, Hy. injection Hx as ->. injection Hy as ->.
  destruct (Forall2_lookup_r _ _ _ _ _ Hps Hi) as (r & Hr & Hpt).
  by rewrite Hr, (point_Some r x y Hpt).
Qed.

Lemma node_list_lookup_at np_log group xs ys community reps labels ca i r x y c :
  group !! i = Some r → xs !! i = Some x → ys !! i = Some y →
  community !! i = Some c →
  node_list np_log group xs ys community reps labels ca !! i
    = Some (make_node np_log r x y c
              (bool_decide (Group.id r ∈ reps))
              ((dict_of (zip reps labels) : gmap string string)
                 !! Group.id r)
              (default "None"%string
                 ((dict_of (zip ca.*1 labels) : gmap nat string) !! c))).
Proof.
  intros Hr Hx Hy Hci. unfold node_list.
  rewrite lookup_zip_with, Hr. simpl.
  set (rest := zip xs _).
  assert (rest !! i
          = Some (x, (y, (c, (bool_decide (Group.id r ∈ reps),
              ((dict_of (zip reps labels) : gmap string string) !! Group.id r,
               default "None"%string
                 ((dict_of (zip ca.*1 labels) : gmap nat string) !! c)))))))
    as ->; [|done].
  unfold rest.
  apply lookup_zip_Some. split; [done|].
  apply lookup_zip_Some. split; [done|].
  apply lookup_zip_Some. split; [done|].
  apply lookup_zip_Some. split; [by rewrite list_lookup_fmap, Hr|].
  apply lookup_zip_Some. split; [by rewrite list_lookup_fmap, Hr|].
  by rewrite list_lookup_fmap, Hci.
Qed.

(** X9. In the payload of a successful request the element at the
    position of a row is the node of that row: its id and label are the
    id and the term of the row, its size is ten times the logarithm of the
    gene count plus two, its position is fifty times the point the layout
    gave to the vertex, and its class is the community of the vertex. *)
Theorem payload_nodes annot onto_graph sort_values layout
    community_multilevel np_log group wsem (σ : store) elements ss :
  (get_cytoscape_components annot onto_graph sort_values layout
     community_multilevel np_log group wsem σ).2 = Ok (elements, ss) →
  ∃ graph,
    (similarity_graph group wsem σ).2 = Ok graph
    ∧ length (layout graph) = length group
    ∧ length (community_multilevel graph) = length group
    ∧ ∀ i r, group !! i = Some r →
        ∃ x y c nd,
          layout graph !! i = Some [x; y]
          ∧ community_multilevel graph !! i = Some c
          ∧ elements !! i = Some (Node nd ((x * 50)%Q, (y * 50)%Q) (pretty c))
          ∧ node_id nd = Group.id r
          ∧ node_label nd = Group.term r
          ∧ node_genes nd = (np_log (Group.genes r + 2)%Z * 10)%Q.
Proof.
  intros Hrun.
  apply get_cytoscape_components_inv in Hrun as (graph & Hsg & Hrun).
  exists graph. split; [done|].
  apply components_of_graph_inv in Hrun
    as (xs & ys & es' & color & reps & ca & labels & edges & Hxy & Hxs & Hys
        & Hc & _ & _ & _ & _ & _ & _ & -> & _).
  assert (length (layout graph) = length group) as Hlay.
  { unfold transpose_unpack2 in Hxy.
    destruct (layout graph) as [|p0 coords]; [done|].
    destruct (mapM point (p0 :: coords)) as [ps|] eqn:Hps; [|done].
    injection Hxy as <- <-. apply mapM_Some, Forall2_length in Hps.
    by rewrite length_fmap in Hxs; rewrite Hps. }
  split_and!; [done..|].
  intros i r Hr. pose proof (lookup_lt_Some _ _ _ Hr) as Hi.
  destruct (lookup_lt_is_Some_2 xs i) as [x Hx]; [lia|].
  destruct (lookup_lt_is_Some_2 ys i) as [y Hy]; [lia|].
  destruct (lookup_lt_is_Some_2 (community_multilevel graph) i) as [c Hci];
    [lia|].
  eexists x, y, c, _. split_and!.
  - by eapply transpose_unpack2_lookup.
  - done.
  - rewrite lookup_app_l.
    + by apply node_list_lookup_at.
    + by rewrite length_node_list.
  - done.
  - done.
  - done.
Qed.

Lemma dict_get_elem_of {V} (d : list (nat * V)) k v :
  dict_get d k = Ok v → (k, v) ∈ d.
Proof.
  induction d as [|[k' v'] d IH]; simpl; [done|].
  case_decide as Hk; [intros [= <-]; subst; by left|].
  intros Hd. right. by apply IH.
Qed.

Lemma make_edge_classes group community e el :
  make_edge group community e = Ok el →
  ∃ c, c ∈ community ∧ element_classes el = pretty c.
Proof.
  destruct e as [[s t] w]. unfold make_edge.
  destruct (iloc0 _) as [rc|] eqn:Hrc; [|done].
  cbn [mbind result_bind mret result_ret]. intros [= <-].
  apply iloc0_Ok_inv, head_filter_first in Hrc as (j & Hj & _).
  destruct rc as [r c]. apply lookup_zip_Some in Hj as [_ Hc].
  exists c. split; [by eapply list_elem_of_lookup_2|done].
Qed.

(** X10. A request succeeds only with at most 48 communities, and then
    every element of the payload, node or edge, has as class a community
    id for which the stylesheet holds a rule: its selector is the class,
    and the three colour entries of its style are the palette colour at
    the rank of the community id among the distinct ids, taken modulo
    24. *)
Theorem payload_classes_styled annot onto_graph sort_values layout
    community_multilevel np_log group wsem (σ : store) elements ss :
  (get_cytoscape_components annot onto_graph sort_values layout
     community_multilevel np_log group wsem σ).2 = Ok (elements, ss) →
  ∃ graph,
    (similarity_graph group wsem σ).2 = Ok graph
    ∧ length (Numpy.unique (community_multilevel graph)) ≤ 48
    ∧ ∀ e, e ∈ elements →
        ∃ c j colour,
          element_classes e = pretty c
          ∧ Numpy.unique (community_multilevel graph) !! j = Some c
          ∧ Dark24 !! (j `mod` 24) = Some colour
          ∧ mk_rule ("." +:+ pretty c)
              [("background-color", colour); ("line-color", colour);
               ("color", colour)]%string ∈ ss.
Proof.
  intros Hrun.
  apply get_cytoscape_components_inv in Hrun as (graph & Hsg & Hrun).
  exists graph. split; [done|].
  apply components_of_graph_inv in Hrun
    as (xs & ys & es' & color & reps & ca & labels & edges & _ & Hxs & Hys
        & Hc & _ & Hcol & _ & _ & _ & Hedges & -> & ->).
  set (community := community_multilevel graph) in *.
  assert (length (Numpy.unique community) ≤ 48) as Hle.
  { destruct (decide (length (Numpy.unique community) ≤ 48)); [done|].
    rewrite node_colors_too_many in Hcol by lia. done. }
  split; [done|].
  assert (∀ c, c ∈ community →
            ∃ j colour,
              Numpy.unique community !! j = Some c
              ∧ Dark24 !! (j `mod` 24) = Some colour
              ∧ mk_rule ("." +:+ pretty c)
                  [("background-color", colour); ("line-color", colour);
                   ("color", colour)]%string
                ∈ stylesheet (color_map community)) as Hstyle.
  { intros c Hin. apply elem_of_np_unique, list_elem_of_lookup in Hin as [j Hj].
    destruct (color_map_cycles community j c Hle Hj) as (colour & Hd & Hget).
    exists j, colour. split_and!; [done..|].
    unfold stylesheet. apply elem_of_app. right.
    apply list_elem_of_fmap. exists (c, colour).
    split; [done|by apply dict_get_elem_of]. }
  intros e [He|He]%elem_of_app.
  - apply list_elem_of_lookup in He as [i Hi].
    pose proof (lookup_lt_Some _ _ _ Hi) as Hlt.
    rewrite length_node_list in Hlt by done.
    destruct (lookup_lt_is_Some_2 group i) as [r Hr]; [done|].
    destruct (node_list_lookup np_log group xs ys community reps labels ca i r
                Hxs Hys Hc Hr) as (x & y & c & Hci & Hnode).
    rewrite Hnode in Hi. injection Hi as <-.
    destruct (Hstyle c) as (j & colour & ?); [by eapply list_elem_of_lookup_2|].
    by exists c, j, colour.
  - apply mapM_Ok in Hedges.
    apply list_elem_of_lookup in He as [k Hk].
    destruct (Forall2_lookup_r _ _ _ _ _ Hedges Hk) as (e0 & _ & Hmk).
    apply make_edge_classes in Hmk as (c & Hin & Hcls).
    destruct (Hstyle c Hin) as (j & colour & ?).
    by exists c, j, colour.
Qed.

Lemma payload_nodes_witness :
  ∃ graph,
    (similarity_graph Fixture.group3 7 Fixture.store4).2 = Ok graph
    ∧ length (Fixture.diagonal_layout graph) = length Fixture.group3
    ∧ length (Fixture.one_community graph) = length Fixture.group3
    ∧ ∀ i r, Fixture.group3 !! i = Some r →
        ∃ x y c nd,
          Fixture.diagonal_layout graph !! i = Some [x; y]
          ∧ Fixture.one_community graph !! i = Some c
          ∧ Fixture.elements3 !! i
            = Some (Node nd ((x * 50)%Q, (y * 50)%Q) (pretty c))
          ∧ node_id nd = Group.id r
          ∧ node_label nd = Group.term r
          ∧ node_genes nd = (Fixture.no_log (Group.genes r + 2)%Z * 10)%Q.
Proof.
  apply (payload_nodes Fixture.annot3 Fixture.onto3
           Fixture.stable_sort_values Fixture.diagonal_layout
           Fixture.one_community Fixture.no_log Fixture.group3 7
           Fixture.store4 Fixture.elements3 Fixture.stylesheet3).
  by vm_compute.
Defined.

Lemma payload_classes_styled_witness :
  ∃ graph,
    (similarity_graph Fixture.group3 7 Fixture.store4).2 = Ok graph
    ∧ length (Numpy.unique (Fixture.one_community graph)) ≤ 48
    ∧ ∀ e, e ∈ Fixture.elements3 →
        ∃ c j colour,
          element_classes e = pretty c
          ∧ Numpy.unique (Fixture.one_community graph) !! j = Some c
          ∧ Dark24 !! (j `mod` 24) = Some colour
          ∧ mk_rule ("." +:+ pretty c)
              [("background-color", colour); ("line-color", colour);
               ("color", colour)]%string ∈ Fixture.stylesheet3.
Proof.
  apply (payload_classes_styled Fixture.annot3 Fixture.onto3
           Fixture.stable_sort_values Fixture.diagonal_layout
           Fixture.one_community Fixture.no_log Fixture.group3 7
           Fixture.store4 Fixture.elements3 Fixture.stylesheet3).
  by vm_compute.
Defined.

Lemma comm_ancestors_keys annot onto_graph cm ca :
  comm_ancestors annot onto_graph cm = Ok ca → ca.*1 = cm.*1.
Proof.
  intros Hca. apply mapM_Ok in Hca.
  induction Hca as [|[k ms] [k' v] cm ca Hx _ IH]; [done|].
  simpl in Hx. destruct (get_comm_ancestors _ _ _) as [v'|]; [|done].
  cbn [mbind result_bind mret result_ret] in Hx. injection Hx as -> ->.
  by rewrite !fmap_cons, IH.
Qed.

Lemma dict_of_lookup_zip `{Countable K} {V} (keys : list K) (vals : list V)
    j k v :
  NoDup keys → length keys ≤ length vals →
  keys !! j = Some k → vals !! j = Some v →
  (dict_of (zip keys vals) : gmap K V) !! k = Some v.
Proof.
  intros Hnd Hlen Hk Hv. unfold dict_of.
  apply elem_of_list_to_map_1.
  - rewrite fmap_reverse, fst_zip by done.
    rewrite reverse_Permutation. done.
  - apply elem_of_reverse. apply (list_elem_of_lookup_2 _ j).
    by apply lookup_zip_Some.
Qed.

Lemma dict_of_lookup_inv `{Countable K} {V} (keys : list K) (vals : list V)
    k v :
  (dict_of (zip keys vals) : gmap K V) !! k = Some v →
  ∃ j, keys !! j = Some k ∧ vals !! j = Some v.
Proof.
  unfold dict_of. intros Hin%elem_of_list_to_map_2.
  apply (proj1 (elem_of_reverse _ _)), list_elem_of_lookup in Hin as [j Hj].
  exists j. by apply lookup_zip_Some.
Qed.

(** X11. In the payload of a successful request over rows of distinct
    ids, the hover label of a node is the label computed for its
    community when the community has several rows, the same for all of
    them, and the text [None] when the row is alone in its community; the
    label drawn on a representative is the hover label of its node. *)
Theorem payload_hover_labels annot onto_graph sort_values layout
    community_multilevel np_log group wsem (σ : store) elements ss :
  sorts_descending sort_values →
  NoDup (Group.id <$> group) →
  (get_cytoscape_components annot onto_graph sort_values layout
     community_multilevel np_log group wsem σ).2 = Ok (elements, ss) →
  ∃ graph ca labels,
    let community := community_multilevel graph in
    let cm := comm_members group community in
    (similarity_graph group wsem σ).2 = Ok graph
    ∧ comm_ancestors annot onto_graph cm = Ok ca
    ∧ rep_labels annot sort_values cm ca = Ok labels
    ∧ ∀ i r, group !! i = Some r →
        ∃ nd pos cls c,
          elements !! i = Some (Node nd pos cls)
          ∧ community !! i = Some c
          ∧ (∀ j members, cm !! j = Some (c, members) →
               labels !! j = Some (node_rep_label_hover nd))
          ∧ ((∀ j, community !! j = Some c → j = i) →
               node_rep_label_hover nd = "None"%string)
          ∧ (∀ l, node_rep_label nd = Some l → node_rep_label_hover nd = l).
Proof.
  intros Hsort Hnd Hrun.
  apply get_cytoscape_components_inv in Hrun as (graph & Hsg & Hrun).
  apply components_of_graph_inv in Hrun
    as (xs & ys & es' & color & reps & ca & labels & edges & _ & Hxs & Hys
        & Hc & _ & _ & Hreps & Hca & Hlabels & _ & -> & _).
  exists graph, ca, labels. simpl. split_and!; [done..|].
  set (community := community_multilevel graph) in *.
  set (cm := comm_members group community) in *.
  pose proof (comm_ancestors_keys _ _ _ _ Hca) as Hkeys.
  apply mapM_Ok in Hreps. apply mapM_Ok in Hca. apply mapM_Ok in Hlabels.
  pose proof (Forall2_length _ _ _ Hreps) as Hl1.
  pose proof (Forall2_length _ _ _ Hca) as Hl2.
  pose proof (Forall2_length _ _ _ Hlabels) as Hl3.
  assert (NoDup ca.*1) as Hndk.
  { rewrite Hkeys. apply NoDup_comm_members_keys. }
  assert (length ca.*1 ≤ length labels) as Hlen
    by (rewrite length_fmap; lia).
  intros i r Hr. pose proof (lookup_lt_Some _ _ _ Hr) as Hi.
  destruct (lookup_lt_is_Some_2 xs i) as [x Hx]; [lia|].
  destruct (lookup_lt_is_Some_2 ys i) as [y Hy]; [lia|].
  destruct (lookup_lt_is_Some_2 community i) as [c Hci]; [lia|].
  assert (∀ j members, cm !! j = Some (c, members) →
            labels !! j
              = Some (default "None"%string
                        ((dict_of (zip ca.*1 labels) : gmap nat string) !! c)))
    as Hshared.
  { intros j members Hj.
    destruct (lookup_lt_is_Some_2 labels j) as [l Hl].
    { rewrite <-Hl3, <-Hl2. by eapply lookup_lt_Some. }
    rewrite (dict_of_lookup_zip ca.*1 labels j c l); [done..| |done].
    by rewrite Hkeys, list_lookup_fmap, Hj. }
  eexists _, _, _, c. split_and!.
  - rewrite lookup_app_l by (by rewrite length_node_list).
    by apply node_list_lookup_at.
  - done.
  - exact Hshared.
  - simpl. intros Honly.
    assert (¬ is_Some ((dict_of (zip ca.*1 labels) : gmap nat string) !! c))
      as Hnone.
    { rewrite dict_of_is_Some by done. rewrite Hkeys.
      intros ([c' ms] & Heq & Hin)%list_elem_of_fmap. simpl in Heq. subst c'.
      destruct (singleton_not_comm_member group community c ms i Hnd Hin Hci)
        as (j & Hne & Hj).
      by apply Hne, Honly. }
    apply eq_None_not_Some in Hnone. by rewrite Hnone.
  - simpl. intros l Hl.
    apply dict_of_lookup_inv in Hl as (j & Hj & Hlj).
    destruct (Forall2_lookup_r _ _ _ _ _ Hreps Hj) as ([k ms] & Hkm & Hrep).
    simpl in Hrep.
    pose proof (representative_of_member sort_values group community k ms i r
                  Hsort Hnd (list_elem_of_lookup_2 _ _ _ Hkm) Hrep Hr) as Hk.
    assert (k = c) as -> by congruence.
    rewrite (Hshared j ms Hkm) in Hlj. by injection Hlj.
Qed.

Lemma payload_hover_labels_witness :
  ∃ graph ca labels,
    let community := Fixture.one_community graph in
    let cm := comm_members Fixture.group3 community in
    (similarity_graph Fixture.group3 7 Fixture.store4).2 = Ok graph
    ∧ comm_ancestors Fixture.annot3 Fixture.onto3 cm = Ok ca
    ∧ rep_labels Fixture.annot3 Fixture.stable_sort_values cm ca = Ok labels
    ∧ ∀ i r, Fixture.group3 !! i = Some r →
        ∃ nd pos cls c,
          Fixture.elements3 !! i = Some (Node nd pos cls)
          ∧ community !! i = Some c
          ∧ (∀ j members, cm !! j = Some (c, members) →
               labels !! j = Some (node_rep_label_hover nd))
          ∧ ((∀ j, community !! j = Some c → j = i) →
               node_rep_label_hover nd = "None"%string)
          ∧ (∀ l, node_rep_label nd = Some l → node_rep_label_hover nd = l).
Proof.
  apply (payload_hover_labels Fixture.annot3 Fixture.onto3
           Fixture.stable_sort_values Fixture.diagonal_layout
           Fixture.one_community Fixture.no_log Fixture.group3 7
           Fixture.store4 Fixture.elements3 Fixture.stylesheet3
           stable_sort_values_descending).
  - by vm_compute; repeat constructor; set_solver.
  - by vm_compute.
Defined.

Lemma NoDup_fmap_filter {A B} (f : A → B) (P : A → Prop)
    `{∀ x, Decision (P x)} (l : list A) :
  NoDup (f <$> l) → NoDup (f <$> filter P l).
Proof.
  induction l as [|x l IH]; [done|]. rewrite fmap_cons, filter_cons.
  intros [Hx Hl]%NoDup_cons. destruct (decide (P x)); [|by apply IH].
  rewrite fmap_cons. apply NoDup_cons. split; [|by apply IH].
  intros (y & Hy & Hin)%list_elem_of_fmap. apply Hx.
  apply list_elem_of_fmap. exists y. split; [done|].
  by apply list_elem_of_filter in Hin as [_ ?].
Qed.

(** The representative of a listed community is the id of one of its
    rows. *)
Lemma representative_of_row sort_values group community k ms rep :
  sorts_descending sort_values →
  NoDup (Group.id <$> group) →
  (k, ms) ∈ comm_members group community →
  representative_of sort_values group ms = Ok rep →
  ∃ i r, group !! i = Some r ∧ Group.id r = rep ∧ community !! i = Some k.
Proof.
  intros Hsort Hnd Hkm Hrep. pose proof Hrep as Hrep'.
  unfold representative_of in Hrep.
  apply fmap_Ok in Hrep as (r & Hr & ->).
  apply iloc0_sort_values_inv in Hr as [Hin _]; [|done].
  apply list_elem_of_filter in Hin as [_ Hin].
  apply list_elem_of_lookup in Hin as [i Hi].
  exists i, r. split_and!; [done..|].
  by eapply representative_of_member.
Qed.

(** X17. In a successful request over rows of distinct ids every
    community with more than one row gets one representative, different
    communities get different ones, and so the rows whose node carries the
    representative flag are as many as these communities. *)
Theorem one_representative_per_community annot onto_graph sort_values layout
    community_multilevel np_log group wsem (σ : store) elements ss :
  sorts_descending sort_values →
  NoDup (Group.id <$> group) →
  (get_cytoscape_components annot onto_graph sort_values layout
     community_multilevel np_log group wsem σ).2 = Ok (elements, ss) →
  ∃ graph reps,
    let cm := comm_members group (community_multilevel graph) in
    (similarity_graph group wsem σ).2 = Ok graph
    ∧ representatives sort_values group cm = Ok reps
    ∧ length reps = length cm
    ∧ NoDup reps
    ∧ (∀ i r, group !! i = Some r →
         ∃ nd pos cls,
           elements !! i = Some (Node nd pos cls)
           ∧ node_representative nd = bool_decide (Group.id r ∈ reps))
    ∧ length (filter (λ r, Group.id r ∈ reps) group) = length cm.
Proof.
  intros Hsort Hnd Hrun.
  apply get_cytoscape_components_inv in Hrun as (graph & Hsg & Hrun).
  apply components_of_graph_inv in Hrun
    as (xs & ys & es' & color & reps & ca & labels & edges & _ & Hxs & Hys
        & Hc & _ & _ & Hreps & _ & _ & _ & -> & _).
  exists graph, reps. simpl.
  set (community := community_multilevel graph) in *.
  set (cm := comm_members group community) in *.
  pose proof Hreps as Hall. apply mapM_Ok in Hall.
  pose proof (Forall2_length _ _ _ Hall) as Hlen.
  assert (∀ j rep, reps !! j = Some rep →
            ∃ k ms i r, cm !! j = Some (k, ms) ∧ group !! i = Some r
                        ∧ Group.id r = rep ∧ community !! i = Some k)
    as Hrow.
  { intros j rep Hj.
    destruct (Forall2_lookup_r _ _ _ _ _ Hall Hj) as ([k ms] & Hkm & Hrep).
    simpl in Hrep.
    destruct (representative_of_row sort_values group community k ms rep
                Hsort Hnd (list_elem_of_lookup_2 _ _ _ Hkm) Hrep)
      as (i & r & Hr & Hid & Hk).
    by exists k, ms, i, r. }
  assert (NoDup reps) as Hndr.
  { apply NoDup_alt. intros j1 j2 rep Hj1 Hj2.
    destruct (Hrow j1 rep Hj1) as (k1 & ms1 & i1 & r1 & Hc1 & Hr1 & Hid1 & Hk1).
    destruct (Hrow j2 rep Hj2) as (k2 & ms2 & i2 & r2 & Hc2 & Hr2 & Hid2 & Hk2).
    assert (i1 = i2) as ->.
    { eapply NoDup_lookup; [exact Hnd|..].
      - by rewrite list_lookup_fmap, Hr1; simpl; rewrite Hid1.
      - by rewrite list_lookup_fmap, Hr2; simpl; rewrite Hid2. }
    assert (k1 = k2) as -> by congruence.
    eapply NoDup_lookup; [apply (NoDup_comm_members_keys group community)|..].
    - fold cm. by rewrite list_lookup_fmap, Hc1.
    - fold cm. by rewrite list_lookup_fmap, Hc2. }
  split_and!; [done|done|done|done| |].
  - intros i r Hr. pose proof (lookup_lt_Some _ _ _ Hr) as Hi.
    destruct (lookup_lt_is_Some_2 xs i) as [x Hx]; [lia|].
    destruct (lookup_lt_is_Some_2 ys i) as [y Hy]; [lia|].
    destruct (lookup_lt_is_Some_2 community i) as [c Hci]; [lia|].
    eexists _, _, _. split.
    + rewrite lookup_app_l by (by rewrite length_node_list).
      by apply node_list_lookup_at.
    + done.
  - rewrite Hlen.
    rewrite <-(length_fmap Group.id (filter _ group)).
    apply Permutation_length, NoDup_Permutation; [|done|].
    + by apply NoDup_fmap_filter.
    + intros x. rewrite list_elem_of_fmap. split.
      * intros (r & -> & Hin). by apply list_elem_of_filter in Hin as [? _].
      * intros [j Hj]%list_elem_of_lookup.
        destruct (Hrow j x Hj) as (k & ms & i & r & _ & Hr & Hid & _).
        exists r. split; [done|]. apply list_elem_of_filter.
        split; [|by eapply list_elem_of_lookup_2].
        rewrite Hid. by eapply list_elem_of_lookup_2.
Qed.

Lemma one_representative_per_community_witness :
  ∃ graph reps,
    let cm := comm_members Fixture.group3 (Fixture.one_community graph) in
    (similarity_graph Fixture.group3 7 Fixture.store4).2 = Ok graph
    ∧ representatives Fixture.stable_sort_values Fixture.group3 cm = Ok reps
    ∧ length reps = length cm
    ∧ NoDup reps
    ∧ (∀ i r, Fixture.group3 !! i = Some r →
         ∃ nd pos cls,
           Fixture.elements3 !! i = Some (Node nd pos cls)
           ∧ node_representative nd = bool_decide (Group.id r ∈ reps))
    ∧ length (filter (λ r, Group.id r ∈ reps) Fixture.group3) = length cm.
Proof.
  apply (one_representative_per_community Fixture.annot3 Fixture.onto3
           Fixture.stable_sort_values Fixture.diagonal_layout
           Fixture.one_community Fixture.no_log Fixture.group3 7
           Fixture.store4 Fixture.elements3 Fixture.stylesheet3
           stable_sort_values_descending).
  - by vm_compute; repeat constructor; set_solver.
  - by vm_compute.
Defined.

End PayloadFacts.

(** ** When a request returns a payload *)

Module RequestFacts.
Import Ontology Numpy Igraph Pandas.
Import OntologyFacts OntologyMore GraphFacts GraphMore LabelFacts PayloadFacts.

Lemma mapM_success {A B} (f : A → result B) (l : list A) :
  (∀ x, x ∈ l → ∃ y, f x = Ok y) → ∃ k, mapM f l = Ok k.
Proof.
  intros Hall.
  assert (∃ k, Forall2 (λ x y, f x = Ok y) l k) as [k Hk].
  { induction l as [|x l IH]; [by exists []|].
    destruct (Hall x) as [y Hy]; [by left|].
    destruct IH as [k Hk]. { intros x' Hx'. apply Hall. by right. }
    exists (y :: k). by constructor. }
  exists k. by apply mapM_Ok.
Qed.

Lemma iloc0_nonempty {A} (l : list A) : l ≠ [] → ∃ r, iloc0 l = Ok r.
Proof. destruct l as [|r l]; [done|]. by exists r. Qed.

Lemma coordinates_success layout n graph :
  0 < n → length (layout graph) = n →
  Forall (λ p, length p = 2) (layout graph) →
  ∃ xs ys, coordinates layout n graph = Ok (xs, ys).
Proof.
  intros Hn Hlen Hpts.
  destruct (transpose_unpack2_ok (layout graph)) as (xs & ys & Hxy & Hxs & Hys);
    [|done|].
  { intros Hnil. rewrite Hnil in Hlen. simpl in Hlen. lia. }
  exists xs, ys. unfold coordinates. rewrite Hxy. cbn [mbind result_bind].
  assert (set_column n xs = Ok xs) as ->.
  { unfold set_column. rewrite decide_True; [done|lia]. }
  cbn [mbind result_bind].
  assert (set_column n ys = Ok ys) as ->.
  { unfold set_column. rewrite decide_True; [done|lia]. }
  done.
Qed.

Lemma edge_list_success group thr graph :
  Weighted_Adjacency thr = Ok graph → length thr = length group →
  ∃ es', edge_list group graph = Ok es'.
Proof.
  intros Hg Hlen. apply mapM_success. intros [[a b] w] He.
  apply (elem_of_es_Weighted_Adjacency thr graph) in He as [[Hab Hb] _];
    [|done].
  destruct (lookup_lt_is_Some_2 group a) as [ra Hra]; [lia|].
  destruct (lookup_lt_is_Some_2 group b) as [rb Hrb]; [lia|].
  exists (Group.id ra, Group.id rb, w).
  apply index_Ok in Hra, Hrb. by rewrite Hra, Hrb.
Qed.

Lemma node_colors_success membership :
  length (Numpy.unique membership) ≤ 48 →
  ∃ color, node_colors membership = Ok color.
Proof.
  intros Hle. apply mapM_success. intros c Hc.
  apply elem_of_np_unique, list_elem_of_lookup in Hc as [j Hj].
  destruct (color_map_cycles membership j c Hle Hj) as (colour & _ & Hget).
  by exists colour.
Qed.

(** The members of a listed community: there is one, and each is the id
    of a row. *)
Lemma comm_members_rows group community k ms :
  (k, ms) ∈ comm_members group community →
  ms ≠ [] ∧ ∀ x, x ∈ ms → ∃ r, r ∈ group ∧ Group.id r = x.
Proof.
  intros (_ & -> & Hlen)%elem_of_comm_members. split.
  - intros Hnil. rewrite Hnil in Hlen. simpl in Hlen. lia.
  - intros x (j & r & Hr & _ & Hid)%elem_of_ids_of.
    exists r. split; [by eapply list_elem_of_lookup_2|done].
Qed.

Lemma representatives_success sort_values group community :
  sorts_descending sort_values →
  ∃ reps,
    representatives sort_values group (comm_members group community) = Ok reps.
Proof.
  intros Hsort. apply mapM_success. intros [k ms] Hin. simpl.
  apply comm_members_rows in Hin as [Hne Hrows].
  destruct ms as [|x ms]; [done|].
  destruct (Hrows x) as (r0 & Hr0 & Hid); [by left|].
  unfold representative_of.
  destruct (iloc0_sort_values sort_values (λ r, [Group.genes r])
              (filter (λ r, Group.id r ∈ x :: ms) group) Hsort)
    as (r & Hr & _).
  { intros Hnil.
    assert (r0 ∈ filter (λ r, Group.id r ∈ x :: ms) group) as Hin.
    { apply list_elem_of_filter. split; [rewrite Hid; by left|done]. }
    rewrite Hnil in Hin. by apply elem_of_nil in Hin. }
  exists (Group.id r). by rewrite Hr.
Qed.

Lemma comm_ancestors_success annot onto_graph group community :
  ∃ ca, comm_ancestors annot onto_graph (comm_members group community) = Ok ca.
Proof.
  apply mapM_success. intros [k ms] Hin. simpl.
  apply comm_members_rows in Hin as [Hne _].
  destruct (get_comm_ancestors_spec ms (roots annot) onto_graph Hne)
    as (s & Hs & _).
  rewrite Hs. by eexists.
Qed.

Lemma walk_nodes graph s q e x :
  walk graph s q e → x ∈ q → ∃ k nbrs, graph !! k = Some nbrs ∧ x ∈ nbrs.
Proof.
  induction 1 as [s|s n q e nbrs Hg Hn Hw IH]; [by intros ?%elem_of_nil|].
  intros [->|Hx]%elem_of_cons; [by exists s, nbrs|by apply IH].
Qed.

(** An ancestor is the node itself or a neighbour of some node. *)
Lemma get_ancestors_nodes node roots graph x :
  x ∈ get_ancestors node roots graph →
  x = node ∨ ∃ k nbrs, graph !! k = Some nbrs ∧ x ∈ nbrs.
Proof.
  rewrite get_ancestors_unfold. simpl. case_decide.
  - rewrite elem_of_ancestors_paths. intros (root & p & _ & Hp & Hx).
    apply find_all_paths_sound in Hp as (q & -> & Hw & _).
    apply elem_of_cons in Hx as [->|Hx]; [by left|right].
    by eapply walk_nodes.
  - intros ->%elem_of_singleton. by left.
Qed.

Lemma filter_nonempty {A} (P : A → Prop) `{∀ x, Decision (P x)}
    (l : list A) x :
  x ∈ l → P x → filter P l ≠ [].
Proof.
  intros Hx HP Hnil.
  assert (x ∈ filter P l) as Hin by (by apply list_elem_of_filter).
  rewrite Hnil in Hin. by apply elem_of_nil in Hin.
Qed.

Lemma rep_label_success annot onto_graph sort_values group community j k ms v :
  sorts_descending sort_values →
  (∀ r, r ∈ group → Group.id r ∈ Annot.GO_ID <$> annot) →
  (∀ k nbrs x, onto_graph !! k = Some nbrs → x ∈ nbrs →
     x ∈ Annot.GO_ID <$> annot) →
  comm_members group community !! j = Some (k, ms) →
  get_comm_ancestors ms (roots annot) onto_graph = Ok v →
  ∃ label,
    rep_label annot sort_values (comm_members group community) k v = Ok label.
Proof.
  intros Hsort Hgroup Hgraph Hj Hv.
  pose proof (list_elem_of_lookup_2 _ _ _ Hj) as Hin.
  apply comm_members_rows in Hin as [Hne Hrows].
  assert (∀ x, x ∈ ms → x ∈ Annot.GO_ID <$> annot) as Hms.
  { intros x Hx. destruct (Hrows x Hx) as (r & Hr & <-). by apply Hgroup. }
  assert (∀ x, x ∈ v → x ∈ Annot.GO_ID <$> annot) as Hanc.
  { intros x Hx.
    destruct (get_comm_ancestors_spec ms (roots annot) onto_graph Hne)
      as (s & Hs & Hspec).
    rewrite Hv in Hs. injection Hs as <-.
    destruct ms as [|leaf ms]; [done|].
    assert (x ∈ get_ancestors leaf (roots annot) onto_graph) as Hleaf.
    { apply Hspec; [done|by left]. }
    apply get_ancestors_nodes in Hleaf as [->|(k' & nbrs & Hk & Hnb)].
    - apply Hms. by left.
    - by eapply Hgraph. }
  assert (0 < size v →
          filter (λ r, Annot.GO_ID r ∈ v) annot ≠ []) as Hfilter.
  { intros [x Hx]%size_pos_elem_of.
    destruct (proj1 (list_elem_of_fmap _ _ _) (Hanc x Hx)) as (r & -> & Hr).
    by eapply filter_nonempty. }
  unfold rep_label. case_decide as H1; [|case_decide as H0].
  - destruct (iloc0_nonempty (filter (λ r, Annot.GO_ID r ∈ v) annot))
      as [r Hr]; [apply Hfilter; lia|].
    rewrite Hr. by eexists.
  - rewrite (dict_get_lookup _ j k ms (NoDup_comm_members_keys _ _) Hj).
    cbn [mbind result_bind].
    destruct ms as [|x ms]; [done|].
    destruct (iloc0_sort_values sort_values (λ r, [Annot.genes r])
                (filter (λ r, Annot.GO_ID r ∈ x :: ms) annot) Hsort)
      as (r & Hr & _).
    { destruct (proj1 (list_elem_of_fmap _ _ _) (Hms x ltac:(by left)))
        as (r0 & Hid & Hr0).
      eapply filter_nonempty; [exact Hr0|]. simpl. rewrite <-Hid. by left. }
    rewrite Hr. by eexists.
  - destruct (iloc0_sort_values sort_values
                (λ r, [Annot.depth r; Annot.genes r])
                (filter (λ r, Annot.GO_ID r ∈ v) annot) Hsort)
      as (r & Hr & _); [apply Hfilter; lia|].
    rewrite Hr. by eexists.
Qed.

Lemma rep_labels_success annot onto_graph sort_values group community ca :
  sorts_descending sort_values →
  (∀ r, r ∈ group → Group.id r ∈ Annot.GO_ID <$> annot) →
  (∀ k nbrs x, onto_graph !! k = Some nbrs → x ∈ nbrs →
     x ∈ Annot.GO_ID <$> annot) →
  comm_ancestors annot onto_graph (comm_members group community) = Ok ca →
  ∃ labels,
    rep_labels annot sort_values (comm_members group community) ca = Ok labels.
Proof.
  intros Hsort Hgroup Hgraph Hca. apply mapM_success. intros [k v] Hin.
  apply mapM_Ok in Hca. apply list_elem_of_lookup in Hin as [j Hj].
  destruct (Forall2_lookup_r _ _ _ _ _ Hca Hj) as ([k' ms] & Hkm & Hanc).
  simpl in Hanc.
  destruct (get_comm_ancestors ms (roots annot) onto_graph) as [v'|] eqn:Hv;
    [|done].
  cbn [mbind result_bind mret result_ret] in Hanc. injection Hanc as -> ->.
  simpl. by eapply rep_label_success.
Qed.

Lemma make_edges_success group community graph es' :
  length community = length group →
  edge_list group graph = Ok es' →
  ∃ edges, mapM (make_edge group community) es' = Ok edges.
Proof.
  intros Hlen Hes. apply mapM_success. intros [[s t] w] He.
  apply mapM_Ok in Hes. apply list_elem_of_lookup in He as [k Hk].
  destruct (Forall2_lookup_r _ _ _ _ _ Hes Hk) as ([[a b] w'] & _ & Hrow).
  simpl in Hrow.
  destruct (index group a) as [ra|] eqn:Hra; [|done].
  cbn [mbind result_bind] in Hrow.
  destruct (index group b) as [rb|] eqn:Hrb; [|done].
  cbn [mbind result_bind mret result_ret] in Hrow.
  injection Hrow as <- <- <-. apply index_Ok in Hra.
  destruct (lookup_lt_is_Some_2 community a) as [c Hc].
  { rewrite Hlen. by eapply lookup_lt_Some. }
  unfold make_edge.
  destruct (iloc0_nonempty
              (filter (λ rc : Group.row * nat, Group.id rc.1 = Group.id ra)
                 (zip group community))) as [rc Hrc].
  { intros Hnil.
    assert ((ra, c) ∈ filter (λ rc : Group.row * nat,
                                Group.id rc.1 = Group.id ra)
                        (zip group community)) as Hin.
    { apply list_elem_of_filter. split; [done|].
      apply (list_elem_of_lookup_2 _ a). by apply lookup_zip_Some. }
    rewrite Hnil in Hin. by apply elem_of_nil in Hin. }
  rewrite Hrc. by eexists.
Qed.

(** X12. A request returns a payload when: the similarity matrix is
    square and covers the indices of the group; the group is not empty;
    the layout gives one point of two coordinates per vertex and the
    clustering one community per vertex, at most 48 of them distinct; the
    sort puts a row of largest key first; and the ids of the group and
    the neighbours listed in the ontology graph all have a row in the
    annotation table. *)
Theorem request_succeeds annot onto_graph sort_values layout
    community_multilevel np_log group wsem (σ : store) m n :
  σ !! wsem = Some m →
  length m = n →
  Forall (λ row, length row = n) m →
  Forall (λ r, Group.ind r < n) group →
  group ≠ [] →
  (∀ g, length (layout g) = vcount g
        ∧ Forall (λ p, length p = 2) (layout g)) →
  (∀ g, length (community_multilevel g) = vcount g) →
  (∀ g, vcount g = length group →
        length (Numpy.unique (community_multilevel g)) ≤ 48) →
  sorts_descending sort_values →
  (∀ r, r ∈ group → Group.id r ∈ Annot.GO_ID <$> annot) →
  (∀ k nbrs x, onto_graph !! k = Some nbrs → x ∈ nbrs →
     x ∈ Annot.GO_ID <$> annot) →
  ∃ σ' payload,
    get_cytoscape_components annot onto_graph sort_values layout
      community_multilevel np_log group wsem σ = (σ', Ok payload).
Proof.
  intros Hm Hlen Hsq Hind Hne Hlayout Hcomm Hfew Hsort Hgroup Hgraph.
  destruct (similarity_graph_entries group wsem σ m n Hm Hlen Hsq Hind)
    as (σ' & g & thr & Hrun & Hg & Hthr & Hvc & _).
  exists σ'.
  unfold get_cytoscape_components, mbind, M_bind, lift. rewrite Hrun.
  assert (0 < length group) as Hpos by (destruct group; [done|simpl; lia]).
  destruct (Hlayout g) as [Hl1 Hl2].
  destruct (coordinates_success layout (length group) g Hpos)
    as (xs & ys & Hxy); [by rewrite Hl1|done|].
  destruct (edge_list_success group thr g Hg Hthr) as (es' & Hes).
  assert (length (community_multilevel g) = length group) as Hclen
    by (by rewrite Hcomm).
  assert (set_column (length group) (community_multilevel g)
          = Ok (community_multilevel g)) as Hset.
  { unfold set_column. by rewrite decide_True. }
  destruct (node_colors_success (community_multilevel g) (Hfew g Hvc))
    as (color & Hcol).
  destruct (representatives_success sort_values group
              (community_multilevel g) Hsort) as (reps & Hreps).
  destruct (comm_ancestors_success annot onto_graph group
              (community_multilevel g)) as (ca & Hca).
  destruct (rep_labels_success annot onto_graph sort_values group
              (community_multilevel g) ca Hsort Hgroup Hgraph Hca)
    as (labels & Hlabels).
  destruct (make_edges_success group (community_multilevel g) g es' Hclen Hes)
    as (edges & Hedges).
  unfold components_of_graph.
  rewrite Hxy. cbn [mbind result_bind]. rewrite Hes. cbn [mbind result_bind].
  rewrite Hset. cbn [mbind result_bind]. rewrite Hcol. cbn [mbind result_bind].
  rewrite Hreps. cbn [mbind result_bind]. rewrite Hca. cbn [mbind result_bind].
  rewrite Hlabels. cbn [mbind result_bind]. rewrite Hedges.
  cbn [mbind result_bind mret result_ret].
  by eexists.
Qed.

Lemma request_succeeds_witness :
  ∃ σ' payload,
    get_cytoscape_components Fixture.annot3 Fixture.onto3
      Fixture.stable_sort_values Fixture.diagonal_layout
      Fixture.one_community Fixture.no_log Fixture.group3 7 Fixture.store4
    = (σ', Ok payload).
Proof.
  apply (request_succeeds Fixture.annot3 Fixture.onto3
           Fixture.stable_sort_values Fixture.diagonal_layout
           Fixture.one_community Fixture.no_log Fixture.group3 7
           Fixture.store4 Fixture.sim4 4).
  - reflexivity.
  - reflexivity.
  - by vm_compute; repeat constructor.
  - by vm_compute; repeat constructor; lia.
  - done.
  - intros g. unfold Fixture.diagonal_layout.
    rewrite length_fmap, length_seq. split; [done|].
    apply Forall_fmap, Forall_forall. by intros i _.
  - intros g. apply length_replicate.
  - intros [v e] Hv. simpl in Hv. subst v. vm_compute. lia.
  - exact stable_sort_values_descending.
  - intros r Hr. vm_compute in Hr. vm_compute. set_solver.
  - intros k nbrs x Hk Hx. unfold Fixture.onto3 in Hk. vm_compute.
    repeat (apply lookup_insert_Some in Hk as [[<- <-]|[_ Hk]];
            [set_solver|]).
    apply lookup_singleton_Some in Hk as [<- <-]. set_solver.
Defined.

End RequestFacts.

(** ** The callbacks *)

Module CallbackFacts.
Import Ontology Numpy Igraph Pandas.
Import GraphFacts GraphMore LabelFacts PayloadFacts.

Lemma length_iloc_slice {A} (l : list A) (start stop : nat) :
  length (iloc_slice l start stop) = (stop `min` length l) - start.
Proof. unfold iloc_slice. rewrite length_take, length_drop. lia. Qed.

Lemma iloc_slice_lookup {A} (l : list A) (start stop i : nat) x :
  iloc_slice l start stop !! i = Some x ↔
    start + i < stop ∧ l !! (start + i) = Some x.
Proof.
  unfold iloc_slice. rewrite lookup_take_Some, lookup_drop. split.
  - intros [? ?]. split; [lia|done].
  - intros [? ?]. split; [done|lia].
Qed.

Lemma insert_ranked_Permutation x l : Fixture.insert_ranked x l ≡ₚ x :: l.
Proof.
  induction l as [|y l IH]; simpl; [done|].
  destruct (Fixture.ranked_before y x); [|done].
  rewrite IH. apply Permutation_swap.
Qed.

Lemma sort_ranked_rearranges : rearranges Fixture.sort_ranked.
Proof.
  intros l. induction l as [|x l IH]; simpl; [done|].
  by rewrite insert_ranked_Permutation, IH.
Qed.

(** The rows of the window are rows of the tissue. *)
Lemma data_sig_rows wilcox_results sort_ranked tissue values i r :
  rearranges sort_ranked →
  data_sig wilcox_results sort_ranked tissue values !! i = Some r →
  r ∈ wilcox_results ∧ Wilcox.tissue r = tissue.
Proof.
  intros Hsort Hi. unfold data_sig in Hi.
  apply iloc_slice_lookup in Hi as [_ Hi].
  apply list_elem_of_lookup_2 in Hi. rewrite (Hsort _) in Hi.
  by apply list_elem_of_filter in Hi as [? ?].
Qed.

Lemma length_data_sig wilcox_results sort_ranked tissue values :
  rearranges sort_ranked →
  length (data_sig wilcox_results sort_ranked tissue values)
    = (values.2 `min`
         length (filter (λ r, Wilcox.tissue r = tissue) wilcox_results))
      - values.1.
Proof.
  intros Hsort. unfold data_sig. by rewrite length_iloc_slice, (Hsort _).
Qed.

(** Without rows there is no layout to unpack. *)
Lemma get_cytoscape_components_nil annot onto_graph sort_values layout
    community_multilevel np_log wsem (σ : store) m :
  σ !! wsem = Some m →
  (∀ g, length (layout g) = vcount g) →
  (get_cytoscape_components annot onto_graph sort_values layout
     community_multilevel np_log [] wsem σ).2 = Raise ValueError.
Proof.
  intros Hm Hlayout.
  destruct (similarity_graph_run [] wsem σ m Hm)
    as (r1 & _ & r2 & _ & _ & Hrun).
  unfold get_cytoscape_components, mbind, M_bind, lift. rewrite Hrun.
  simpl. unfold components_of_graph, coordinates.
  specialize (Hlayout {| vcount := 0; es := [] |}).
  destruct (layout _); [done|]. simpl in Hlayout. lia.
Qed.

(** X13. Both graph callbacks raise [ValueError] when the window of the
    slider holds no row: when its two ends coincide (or the upper end is
    below the lower), and when it starts at or after the number of rows of
    the tissue, as for a tissue without any row. *)
Theorem draw_graph_empty_window annot onto_graph sort_values layout
    community_multilevel np_log wilcox_results sort_ranked
    tissue (values : nat * nat) wsem (σ : store) m :
  rearranges sort_ranked →
  σ !! wsem = Some m →
  (∀ g, length (layout g) = vcount g) →
  values.2 ≤ values.1
  ∨ length (filter (λ r, Wilcox.tissue r = tissue) wilcox_results)
      ≤ values.1 →
  (draw_graph1 annot onto_graph sort_values layout community_multilevel
     np_log wilcox_results sort_ranked tissue values wsem σ).2
    = Raise ValueError
  ∧ (draw_graph2 annot onto_graph sort_values layout community_multilevel
       np_log wilcox_results sort_ranked tissue values wsem σ).2
    = Raise ValueError.
Proof.
  intros Hsort Hm Hlayout Hwin.
  assert (data_sig wilcox_results sort_ranked tissue values = []) as Hnil.
  { apply length_zero_iff_nil. rewrite length_data_sig by done. lia. }
  unfold draw_graph1, draw_graph2. rewrite Hnil.
  split; by eapply get_cytoscape_components_nil.
Qed.

Lemma draw_graph_empty_window_witness :
  (draw_graph1 Fixture.annot3 Fixture.onto3 Fixture.stable_sort_values
     Fixture.diagonal_layout Fixture.one_community Fixture.no_log
     Fixture.wilcox4 Fixture.sort_ranked "Brain" (2, 2) 7 Fixture.store4).2
    = Raise ValueError
  ∧ (draw_graph2 Fixture.annot3 Fixture.onto3 Fixture.stable_sort_values
       Fixture.diagonal_layout Fixture.one_community Fixture.no_log
       Fixture.wilcox4 Fixture.sort_ranked "Brain" (2, 2) 7 Fixture.store4).2
    = Raise ValueError.
Proof.
  apply (draw_graph_empty_window Fixture.annot3 Fixture.onto3
           Fixture.stable_sort_values Fixture.diagonal_layout
           Fixture.one_community Fixture.no_log Fixture.wilcox4
           Fixture.sort_ranked "Brain" (2, 2) 7 Fixture.store4 Fixture.sim4).
  - exact sort_ranked_rearranges.
  - reflexivity.
  - intros g. unfold Fixture.diagonal_layout.
    by rewrite length_fmap, length_seq.
  - left. simpl. lia.
Defined.

Lemma is_node_node_list np_log group xs ys community reps labels ca :
  Forall (λ e, is_node e = true)
    (node_list np_log group xs ys community reps labels ca).
Proof.
  unfold node_list. apply Forall_lookup. intros i e Hi.
  apply lookup_zip_with_Some in Hi
    as (r & [x [y [c [rp [rl rh]]]]] & -> & _ & _). done.
Qed.

Lemma filter_app_nodes (nodes edges : list element) :
  Forall (λ e, is_node e = true) nodes →
  Forall (λ e, is_node e = false) edges →
  filter (λ e, is_node e = true) (nodes ++ edges) = nodes.
Proof.
  intros Hn He. rewrite filter_app.
  assert (filter (λ e, is_node e = true) edges = []) as ->.
  { induction He as [|e l He' _ IH]; [done|].
    rewrite filter_cons_False by congruence. done. }
  rewrite app_nil_r. induction Hn as [|e l He' _ IH]; [done|].
  rewrite filter_cons_True by done. by rewrite IH.
Qed.

(** X14. The payload a graph callback returns holds one node per row of
    the window of the slider, in the order of the sorted table: their
    number is the upper end of the window, capped by the number of rows of
    the tissue, less its lower end; and the node at position [i] has the
    id and the term of the [i]-th row of the window, a row of the
    requested tissue. *)
Theorem draw_graph_nodes annot onto_graph sort_values layout
    community_multilevel np_log wilcox_results sort_ranked
    tissue (values : nat * nat) wsem (σ : store) draw elements ss :
  draw = draw_graph1 annot onto_graph sort_values layout
           community_multilevel np_log wilcox_results sort_ranked
  ∨ draw = draw_graph2 annot onto_graph sort_values layout
             community_multilevel np_log wilcox_results sort_ranked →
  rearranges sort_ranked →
  (draw tissue values wsem σ).2 = Ok (elements, ss) →
  length (filter (λ e, is_node e = true) elements)
    = (values.2 `min`
         length (filter (λ r, Wilcox.tissue r = tissue) wilcox_results))
      - values.1
  ∧ ∀ i r,
      data_sig wilcox_results sort_ranked tissue values !! i = Some r →
      r ∈ wilcox_results ∧ Wilcox.tissue r = tissue
      ∧ ∃ nd pos cls,
          elements !! i = Some (Node nd pos cls)
          ∧ node_id nd = Wilcox.id r ∧ node_label nd = Wilcox.term r.
Proof.
  intros Hdraw Hsort Hrun.
  assert ((get_cytoscape_components annot onto_graph sort_values layout
             community_multilevel np_log
             (Wilcox.group_row <$>
                data_sig wilcox_results sort_ranked tissue values)
             wsem σ).2 = Ok (elements, ss)) as Hrun'.
  { by destruct Hdraw as [->| ->]. }
  clear Hrun Hdraw.
  apply get_cytoscape_components_inv in Hrun' as (graph & _ & Hrun).
  set (group := Wilcox.group_row <$> _) in *.
  pose proof Hrun as Hrun'.
  apply components_of_graph_Ok in Hrun'
    as (xs & ys & reps & ca & labels & edges & Hxs & Hys & Hc & _ & _ & _
        & Hedges & ->).
  split.
  - rewrite filter_app_nodes; [|apply is_node_node_list|done].
    rewrite length_node_list by done.
    unfold group. rewrite length_fmap. by apply length_data_sig.
  - intros i r Hi.
    destruct (data_sig_rows _ _ _ _ _ _ Hsort Hi) as [Hin Htissue].
    split_and!; [done..|].
    assert (group !! i = Some (Wilcox.group_row r)) as Hr.
    { unfold group. by rewrite list_lookup_fmap, Hi. }
    destruct (node_list_lookup np_log group xs ys
                (community_multilevel graph) reps labels ca i _
                Hxs Hys Hc Hr) as (x & y & c & _ & Hnode).
    eexists _, _, _. split_and!.
    + rewrite lookup_app_l; [exact Hnode|].
      rewrite length_node_list by done. by eapply lookup_lt_Some.
    + done.
    + done.
Qed.

Lemma draw_graph_nodes_witness :
  length (filter (λ e, is_node e = true) Fixture.elements3)
    = ((0, 3).2 `min`
         length (filter (λ r, Wilcox.tissue r = "Brain"%string)
                   Fixture.wilcox4))
      - (0, 3).1
  ∧ ∀ i r,
      data_sig Fixture.wilcox4 Fixture.sort_ranked "Brain" (0, 3) !! i
        = Some r →
      r ∈ Fixture.wilcox4 ∧ Wilcox.tissue r = "Brain"%string
      ∧ ∃ nd pos cls,
          Fixture.elements3 !! i = Some (Node nd pos cls)
          ∧ node_id nd = Wilcox.id r ∧ node_label nd = Wilcox.term r.
Proof.
  apply (draw_graph_nodes Fixture.annot3 Fixture.onto3
           Fixture.stable_sort_values Fixture.diagonal_layout
           Fixture.one_community Fixture.no_log Fixture.wilcox4
           Fixture.sort_ranked "Brain" (0, 3) 7 Fixture.store4
           (draw_graph1 Fixture.annot3 Fixture.onto3
              Fixture.stable_sort_values Fixture.diagonal_layout
              Fixture.one_community Fixture.no_log Fixture.wilcox4
              Fixture.sort_ranked)
           Fixture.elements3 Fixture.stylesheet3).
  - by left.
  - exact sort_ranked_rearranges.
  - by vm_compute.
Defined.

(** What the node of a row carries for the hover panel. *)
Lemma payload_node_hover annot onto_graph sort_values layout
    community_multilevel np_log group graph elements ss i r :
  NoDup (Group.id <$> group) →
  components_of_graph annot onto_graph sort_values layout
    community_multilevel np_log group graph = Ok (elements, ss) →
  group !! i = Some r →
  ∃ nd pos cls c,
    elements !! i = Some (Node nd pos cls)
    ∧ node_id nd = Group.id r ∧ node_label nd = Group.term r
    ∧ community_multilevel graph !! i = Some c
    ∧ ((∀ j, community_multilevel graph !! j = Some c → j = i) →
       node_rep_label_hover nd = "None"%string).
Proof.
  intros Hnd Hrun Hr.
  apply components_of_graph_inv in Hrun
    as (xs & ys & es' & color & reps & ca & labels & edges & _ & Hxs & Hys
        & Hc & _ & _ & _ & Hca & Hlabels & _ & -> & _).
  set (community := community_multilevel graph) in *.
  pose proof (comm_ancestors_keys _ _ _ _ Hca) as Hkeys.
  apply mapM_Ok in Hca. apply mapM_Ok in Hlabels.
  pose proof (Forall2_length _ _ _ Hca) as Hl2.
  pose proof (Forall2_length _ _ _ Hlabels) as Hl3.
  pose proof (lookup_lt_Some _ _ _ Hr) as Hi.
  destruct (lookup_lt_is_Some_2 xs i) as [x Hx]; [lia|].
  destruct (lookup_lt_is_Some_2 ys i) as [y Hy]; [lia|].
  destruct (lookup_lt_is_Some_2 community i) as [c Hci]; [lia|].
  eexists _, _, _, c. split_and!.
  - rewrite lookup_app_l by (by rewrite length_node_list).
    by apply node_list_lookup_at.
  - done.
  - done.
  - done.
  - simpl. intros Honly.
    assert (¬ is_Some ((dict_of (zip ca.*1 labels) : gmap nat string) !! c))
      as Hnone.
    { rewrite dict_of_is_Some by (rewrite length_fmap; lia). rewrite Hkeys.
      intros ([c' ms] & Heq & Hin)%list_elem_of_fmap. simpl in Heq. subst c'.
      destruct (singleton_not_comm_member group community c ms i Hnd Hin Hci)
        as (j & Hne & Hj).
      by apply Hne, Honly. }
    apply eq_None_not_Some in Hnone. by rewrite Hnone.
Qed.

(** X15. With the pointer on the node of a row of a returned payload,
    the hover panel shows the id and the term of the row joined by a bar,
    and the hover label of the node after [Cluster: ], whichever of the two
    graphs triggered and whatever the other graph reports; for a row that
    is alone in its community the second line reads [Cluster: None]. *)
Theorem hover_panel_of_node annot onto_graph sort_values layout
    community_multilevel np_log group wsem (σ : store) elements ss :
  NoDup (Group.id <$> group) →
  (get_cytoscape_components annot onto_graph sort_values layout
     community_multilevel np_log group wsem σ).2 = Ok (elements, ss) →
  ∃ graph,
    (similarity_graph group wsem σ).2 = Ok graph
    ∧ ∀ i r, group !! i = Some r →
        ∃ nd pos cls,
          elements !! i = Some (Node nd pos cls)
          ∧ (∀ other,
               display_info "go-graph1.mouseoverNodeData" (Some nd) other
               = Children
                   [ H5 (Group.id r +:+ " | " +:+ Group.term r);
                     P ("Cluster: " +:+ node_rep_label_hover nd) ]
               ∧ display_info "go-graph2.mouseoverNodeData" other (Some nd)
                 = Children
                     [ H5 (Group.id r +:+ " | " +:+ Group.term r);
                       P ("Cluster: " +:+ node_rep_label_hover nd) ])
          ∧ ((∀ j, community_multilevel graph !! j
                     = community_multilevel graph !! i → j = i) →
             ∀ other,
               display_info "go-graph1.mouseoverNodeData" (Some nd) other
               = Children
                   [ H5 (Group.id r +:+ " | " +:+ Group.term r);
                     P "Cluster: None" ]).
Proof.
  intros Hnd Hrun.
  apply get_cytoscape_components_inv in Hrun as (graph & Hsg & Hrun).
  exists graph. split; [done|]. intros i r Hr.
  destruct (payload_node_hover _ _ _ _ _ _ _ _ _ _ i r Hnd Hrun Hr)
    as (nd & pos & cls & c & Hel & Hid & Hlabel & Hc & Halone).
  exists nd, pos, cls. split_and!; [done| |].
  - intros other. unfold display_info. simpl. by rewrite Hid, Hlabel.
  - intros Honly other. unfold display_info. simpl.
    rewrite Hid, Hlabel, Halone; [done|].
    intros j Hj. apply Honly. by rewrite Hj, Hc.
Qed.

Lemma hover_panel_of_node_witness :
  ∃ graph,
    (similarity_graph Fixture.group3 7 Fixture.store4).2 = Ok graph
    ∧ ∀ i r, Fixture.group3 !! i = Some r →
        ∃ nd pos cls,
          Fixture.elements3 !! i = Some (Node nd pos cls)
          ∧ (∀ other,
               display_info "go-graph1.mouseoverNodeData" (Some nd) other
               = Children
                   [ H5 (Group.id r +:+ " | " +:+ Group.term r);
                     P ("Cluster: " +:+ node_rep_label_hover nd) ]
               ∧ display_info "go-graph2.mouseoverNodeData" other (Some nd)
                 = Children
                     [ H5 (Group.id r +:+ " | " +:+ Group.term r);
                       P ("Cluster: " +:+ node_rep_label_hover nd) ])
          ∧ ((∀ j, Fixture.one_community graph !! j
                     = Fixture.one_community graph !! i → j = i) →
             ∀ other,
               display_info "go-graph1.mouseoverNodeData" (Some nd) other
               = Children
                   [ H5 (Group.id r +:+ " | " +:+ Group.term r);
                     P "Cluster: None" ]).
Proof.
  apply (hover_panel_of_node Fixture.annot3 Fixture.onto3
           Fixture.stable_sort_values Fixture.diagonal_layout
           Fixture.one_community Fixture.no_log Fixture.group3 7
           Fixture.store4 Fixture.elements3 Fixture.stylesheet3).
  - by vm_compute; repeat constructor; set_solver.
  - by vm_compute.
Defined.

Lemma elem_of_unique_strings (l : list string) x :
  x ∈ unique_strings l ↔ x ∈ l.
Proof.
  unfold unique_strings.
  by rewrite elem_of_reverse, elem_of_remove_dups, elem_of_reverse.
Qed.

Lemma filter_ext_elem_of {A} (P1 P2 : A → Prop)
    `{∀ x, Decision (P1 x)} `{∀ x, Decision (P2 x)} (l : list A) :
  (∀ x, x ∈ l → P1 x ↔ P2 x) → filter P1 l = filter P2 l.
Proof.
  induction l as [|x l IH]; intros Hiff; [done|].
  rewrite !filter_cons.
  rewrite IH by (intros y Hy; apply Hiff; by right).
  destruct (decide (P1 x)) as [H1|H1], (decide (P2 x)) as [H2|H2];
    try done; exfalso; apply (Hiff x) in H1 || apply (Hiff x) in H2;
    try done; by left.
Qed.

Lemma concat_columns_same_length {A B} (a : list A) (b : list B) :
  length a = length b →
  concat_columns a b = zip_with (λ x y, (Some x, Some y)) a b.
Proof.
  revert b. induction a as [|x a IH]; intros [|y b] Hlen; simplify_eq/=;
    [done|].
  by rewrite IH.
Qed.

(** X16. When at least one of the two fields is filled in, the samples
    sent to the reduction are those of the table that pass every filled
    field, an empty field restricting nothing; each contributes the row of
    the latent space at its index label, in table order, and the frame
    returned pairs the [i]-th point of the embedding with the [i]-th of
    these samples.  The latent space has a row for every such label and
    the reduction returns one point per row. *)
Theorem compute_UMAP_selection sample_annot z umap_default fit_transform
    (study tissue : list string) :
  ¬ (study = [] ∧ tissue = []) →
  (∀ a, length (fit_transform a) = length a) →
  let sel :=
    filter (λ r, (study = [] ∨ Sample.study r ∈ study)
                 ∧ (tissue = [] ∨ Sample.tissue r ∈ tissue)) sample_annot in
  Forall (λ r, Sample.index r < length z) sel →
  ∃ z_sub,
    Forall2 (λ r row, z !! Sample.index r = Some row) sel z_sub
    ∧ compute_UMAP sample_annot z umap_default fit_transform study tissue
      = Ok (zip_with (λ p r, (Some p, Some r)) (fit_transform z_sub) sel).
Proof.
  intros Hnot Hfit sel Hidx. unfold compute_UMAP.
  rewrite bool_decide_eq_false_2.
  2:{ intros [H1 H2]. apply Hnot.
      by destruct study, tissue. }
  set (sel' := filter _ sample_annot).
  assert (sel' = sel) as ->.
  { unfold sel', sel. apply filter_ext_elem_of. intros r Hr.
    assert (Sample.study r ∈ unique_strings (Sample.study <$> sample_annot))
      as Hs.
    { apply elem_of_unique_strings, list_elem_of_fmap. by exists r. }
    assert (Sample.tissue r ∈ unique_strings (Sample.tissue <$> sample_annot))
      as Ht.
    { apply elem_of_unique_strings, list_elem_of_fmap. by exists r. }
    destruct study as [|s study], tissue as [|t tissue]; simpl;
      naive_solver. }
  destruct (take_indices_ok z (Sample.index <$> sel))
    as (z_sub & Hsub & Hlen & Hlook).
  { by apply Forall_fmap. }
  rewrite length_fmap in Hlen.
  exists z_sub. split.
  - apply Forall2_same_length_lookup. split; [done|].
    intros k r row Hr Hrow.
    rewrite <-(Hlook k (Sample.index r)); [done|].
    by rewrite list_lookup_fmap, Hr.
  - rewrite Hsub. cbn [mbind result_bind mret result_ret].
    by rewrite concat_columns_same_length by (by rewrite Hfit).
Qed.

Lemma compute_UMAP_selection_witness :
  let sel :=
    filter (λ r, (([] : list string) = [] ∨ Sample.study r ∈ ([] : list string))
                 ∧ (["Brain"%string] = [] ∨ Sample.tissue r ∈ ["Brain"%string]))
      Fixture.samples3 in
  ∃ z_sub,
    Forall2 (λ r row, Fixture.z4 !! Sample.index r = Some row) sel z_sub
    ∧ compute_UMAP Fixture.samples3 Fixture.z4 [] Fixture.first_two
        [] ["Brain"%string]
      = Ok (zip_with (λ p r, (Some p, Some r)) (Fixture.first_two z_sub) sel).
Proof.
  apply (compute_UMAP_selection Fixture.samples3 Fixture.z4 []
           Fixture.first_two [] ["Brain"%string]).
  - by intros [_ ?].
  - intros a. apply length_fmap.
  - by vm_compute; repeat constructor; lia.
Defined.

End CallbackFacts.
